(** * update_year.py: bulk replacement of the year 2025 by 2026 in MDX files

    A shallow embedding of [src/update_year.py] and the properties its
    specification states about it.

    - [Text]: Python [str] values as lists of code points, with
      [str.count] and [str.replace] as the left-to-right scan they perform.
    - [Fs]: the file tree the script works on, with the faults [open],
      [read] and [write] can raise, and the trace of what the run opened
      and printed.
    - [Script]: [update_year_in_file] and [main], statement by statement,
      in a state-and-exception monad.

    Then come the vocabulary in which the properties are stated, the
    lemmas on one text, one file and one run, and the properties
    themselves, C1 to C10.

    The model is of the script on a POSIX system, as its first line
    asks for: names are matched with case, and the line separator that
    [open] writes is LF. A file holds characters (its bytes decoded as
    UTF-8); reading it translates a CR LF pair and a lone CR to LF. An
    entry may be a link, a second name for the entry at another path,
    and [open] follows it. [print] raises when standard output cannot
    encode a path it is given.

    [rglob] is a generator: the loop of [main] runs on each path as the
    walk finds it, and a directory that cannot be listed either is
    passed over (on [PermissionError]) or ends the walk, and with it the
    run, with its exception, after the paths found before it have been
    dealt with. The loop changes the text of files and nothing else, so
    what the walk finds is what it would find in the tree the run starts
    from.

    What the model leaves out: nothing but the script changes the tree
    while it runs; standard output stays open; and no exception arrives
    from outside the statements (an interrupt, say). *)

From Equations Require Import Equations.
From stdpp Require Import gmap strings list fin_maps pretty.
From Stdlib Require Import ZArith Lia.

Set Default Proof Using "Type".

(* ===================================================================== *)
(** * Text: Python strings *)
(* ===================================================================== *)

Module Text.

(** A Python [str] is a sequence of Unicode code points. *)
Abbreviation char := N.
Abbreviation text := (list char).

(** A literal of the script, as text. *)
Definition of_string (s : string) : text :=
  Ascii.N_of_ascii <$> String.list_ascii_of_string s.

(** [s.startswith(sub)] *)
Fixpoint startswith (sub s : text) : bool :=
  match sub, s with
  | [], _ => true
  | _ :: _, [] => false
  | a :: sub', b :: s' => (a =? b)%N && startswith sub' s'
  end.

(** [s.count(sub)] for a non-empty [sub]: scan from the left; at a match
    count one and resume after it, otherwise move one character on. *)
Equations? count_from (sub s : text) : Z by wf (length s) lt :=
  count_from sub [] := 0;
  count_from sub (c :: t) with startswith sub (c :: t) := {
    | true := 1 + count_from sub (drop (pred (length sub)) t);
    | false := count_from sub t }.
Proof. all: rewrite ?length_drop; simpl; lia. Qed.

(** [s.count(sub)]; the empty string is found between all characters. *)
Definition count (s sub : text) : Z :=
  match sub with
  | [] => Z.of_nat (length s) + 1
  | _ :: _ => count_from sub s
  end.

(** [s.replace(old, new)] for a non-empty [old]: the same scan, copying
    [new] at a match and the character otherwise. *)
Equations? replace_from (old new s : text) : text by wf (length s) lt :=
  replace_from old new [] := [];
  replace_from old new (c :: t) with startswith old (c :: t) := {
    | true := new ++ replace_from old new (drop (pred (length old)) t);
    | false := c :: replace_from old new t }.
Proof. all: rewrite ?length_drop; simpl; lia. Qed.

(** [s.replace(old, new)]; an empty [old] inserts [new] around every
    character. *)
Definition replace (s old new : text) : text :=
  match old with
  | [] => new ++ flat_map (λ c, c :: new) s
  | _ :: _ => replace_from old new s
  end.

(** What [open(..., 'r')] without [newline=] makes of the characters of
    a file: a CR LF pair and a lone CR are read as one LF. [after_cr]
    says that the character before was a CR. *)
Fixpoint translate_newlines (after_cr : bool) (s : text) : text :=
  match s with
  | [] => []
  | c :: t =>
      if (c =? 13)%N then 10%N :: translate_newlines true t
      else if (c =? 10)%N && after_cr then translate_newlines false t
      else c :: translate_newlines false t
  end.

Definition universal_newlines (s : text) : text :=
  translate_newlines false s.

End Text.

Import Text.

(* ===================================================================== *)
(** * Fs: the file tree, its faults, and what a run leaves behind *)
(* ===================================================================== *)

Module Fs.

(** A path is its list of components, relative to the working directory:
    [Path('src/content/calculators')] is [["src"; "content"; "calculators"]]. *)
Abbreviation path := (list string).

Definition path_str (p : path) : string := String.concat "/" p.

(** The exceptions [open], [read], [write] and the directory walk raise.
    All of them are subclasses of Python's [Exception]. *)
Inductive exn_class :=
| OSError | FileNotFoundError | IsADirectoryError | PermissionError
| UnicodeDecodeError | UnicodeEncodeError | ValueError.

Record exn := Exn { exn_class_of : exn_class; exn_str : string }.

(** What goes wrong when a file is opened with mode ['w'] and written. *)
Inductive write_fault :=
| OpenFails (e : exn)
  (** [open] raises; the file is left as it was. *)
| WriteFails (e : exn) (n : nat)
  (** [open] has truncated the file and [write] (or the closing flush)
      raises after [n] characters have reached the disk. *).

(** An entry of the tree. The data of a file are the characters it
    holds, line endings as they are on the disk. [rd] is the exception
    that opening it for reading or decoding it raises, if any, and [wr]
    the one writing it raises. *)
Inductive node :=
| File (data : text) (rd : option exn) (wr : option write_fault)
| Dir (ls : option exn)
  (** a directory; [ls] is the exception that listing it ([scandir])
      raises, if any *)
| Link (target : path)
  (** a symbolic link to the entry at [target], or a second name (a hard
      link) of the file there. A directory that is reached through a
      link stands in the tree as a directory whose entries are links. *)
| Unreachable (e : exn)
  (** an entry that is not known to be a directory and on which [stat]
      and [open] raise [e], an [OSError] other than not-found (say, a
      parent directory that may not be searched) *).

Inductive mode := R | W.

(** One call of [print]. *)
Inductive line :=
| LError (file_path : path) (e : exn)
| LOk (rel : path) (replacements : Z)
| LSepOpen
| LHeader
| LFiles (total_files : Z)
| LTotal (total_replacements : Z)
| LSepClose.

Fixpoint repeat_string (n : nat) (s : string) : string :=
  match n with
  | O => EmptyString
  | S n' => s +:+ repeat_string n' s
  end.

(** The text [print] sends to standard output (without the final newline). *)
Definition render (l : line) : string :=
  match l with
  | LError file_path e =>
      "Error procesando " +:+ path_str file_path +:+ ": " +:+ exn_str e
  | LOk rel n =>
      "OK " +:+ path_str rel +:+ ": " +:+ pretty n +:+ " reemplazos"
  | LSepOpen => String (Ascii.ascii_of_nat 10) (repeat_string 60 "=")
  | LHeader => "Resumen:"
  | LFiles n => "  Archivos actualizados: " +:+ pretty n
  | LTotal n => "  Total de reemplazos: " +:+ pretty n
  | LSepClose => repeat_string 60 "="
  end.

(** What a run does that can be observed from outside, in order. *)
Inductive event :=
| Open (p : path) (m : mode)
| Print (l : line).

(** The tree, what the run has done so far, and the names (components
    of a path) that standard output can encode. *)
Record state := State {
  files : gmap path node;
  trace : list event;
  encodes : string → bool;
}.

Definition log (ev : event) (σ : state) : state :=
  State (files σ) (trace σ ++ [ev]) (encodes σ).

Definition store (p : path) (n : node) (σ : state) : state :=
  State (<[p := n]> (files σ)) (trace σ) (encodes σ).

(** The path a line shows. *)
Definition shown (l : line) : path :=
  match l with
  | LError file_path _ => file_path
  | LOk rel _ => rel
  | _ => []
  end.

(** Standard output can encode the line. *)
Definition accepts (σ : state) (l : line) : bool :=
  forallb (encodes σ) (shown l).

(** The lines a sequence of events prints. *)
Definition lines_of (evs : list event) : list line :=
  omap (λ ev, match ev with Print l => Some l | Open _ _ => None end) evs.

(** The paths a sequence of events opens for writing. *)
Definition written_of (evs : list event) : list path :=
  omap (λ ev, match ev with Open p W => Some p | _ => None end) evs.

(** The lines printed so far. *)
Definition printed (σ : state) : list line := lines_of (trace σ).

(** The paths opened for writing so far. *)
Definition opened_w (σ : state) : list path := written_of (trace σ).

End Fs.

Import Fs.

(* ===================================================================== *)
(** * Script: the statements of update_year.py *)
(* ===================================================================== *)

Module Script.

(** A statement either returns a value or raises, and changes the state. *)
Inductive outcome (A : Type) :=
| Return (a : A)
| Raise (e : exn).
Arguments Return {A} a.
Arguments Raise {A} e.

Definition M (A : Type) : Type := state → outcome A * state.

#[export] Instance M_ret : MRet M := λ A a σ, (Return a, σ).

#[export] Instance M_bind : MBind M := λ A B k m σ,
  match m σ with
  | (Return a, σ') => k a σ'
  | (Raise e, σ') => (Raise e, σ')
  end.

Definition raise {A} (e : exn) : M A := λ σ, (Raise e, σ).

(** [try: body  except Exception as e: handler(e)]. Every exception of
    [exn_class] is an [Exception], so the handler takes them all. *)
Definition try_except {A} (body : M A) (handler : exn → M A) : M A := λ σ,
  match body σ with
  | (Return a, σ') => (Return a, σ')
  | (Raise e, σ') => handler e σ'
  end.

(** [for x in xs: body], threading the variables the body assigns. *)
Fixpoint for_each {A V} (xs : list A) (body : A → V → M V) (vars : V) : M V :=
  match xs with
  | [] => mret vars
  | x :: xs' => vars' ← body x vars; for_each xs' body vars'
  end.

(** A generator run to its end: the values it yields, in order, and the
    exception that ends it, if one does. *)
Record generated (A : Type) := Generated {
  yields : list A;
  ends : option exn;
}.
Arguments Generated {A} yields ends.
Arguments yields {A} g.
Arguments ends {A} g.

(** One generator after another ([yield from] each in turn): the first
    that raises ends them all. *)
Fixpoint chain {A} (gs : list (generated A)) : generated A :=
  match gs with
  | [] => Generated [] None
  | g :: gs' =>
      match ends g with
      | Some e => g
      | None => Generated (yields g ++ yields (chain gs')) (ends (chain gs'))
      end
  end.

(** [for x in gen: body]: the body runs on each value as the generator
    yields it; when the generator ends by raising, the loop raises. *)
Definition for_in {A V} (gen : generated A) (body : A → V → M V) (vars : V) : M V :=
  vars' ← for_each (yields gen) body vars;
  match ends gen with
  | Some e => raise e
  | None => mret vars'
  end.

(** [print(...)]: on a stream that cannot encode the text the call
    raises and nothing is written. *)
Definition print (l : line) : M unit := λ σ,
  if accepts σ l then (Return (), log (Print l) σ)
  else
    (Raise (Exn UnicodeEncodeError
              ("codec can't encode characters of '" +:+ path_str (shown l) +:+ "'")),
     σ).

Definition errno_exn (c : exn_class) (msg : string) (p : path) : exn :=
  Exn c (msg +:+ ": '" +:+ path_str p +:+ "'").

(** The number of links the system follows before it gives up. *)
Definition max_links : nat := 40.

(** The path of the entry that [open(p)] works on: links are followed. *)
Fixpoint resolve (n : nat) (fs : gmap path node) (p : path) : option path :=
  match fs !! p with
  | Some (Link q) =>
      match n with
      | O => None
      | S n' => resolve n' fs q
      end
  | _ => Some p
  end.

Definition target (fs : gmap path node) (p : path) : option path :=
  resolve max_links fs p.

(** [with open(p, 'r', encoding='utf-8') as f: content = f.read()].
    Without [newline=] the text layer translates the line endings. *)
Definition read_text (p : path) : M text := λ σ,
  let σ' := log (Open p R) σ in
  match target (files σ) p with
  | None =>
      (Raise (errno_exn OSError "[Errno 40] Too many levels of symbolic links" p), σ')
  | Some q =>
      match files σ !! q with
      | Some (File data None _) => (Return (universal_newlines data), σ')
      | Some (File _ (Some e) _) => (Raise e, σ')
      | Some (Dir _) =>
          (Raise (errno_exn IsADirectoryError "[Errno 21] Is a directory" p), σ')
      | Some (Link _) =>
          (Raise (errno_exn OSError "[Errno 40] Too many levels of symbolic links" p), σ')
      | Some (Unreachable e) => (Raise e, σ')
      | None =>
          (Raise (errno_exn FileNotFoundError "[Errno 2] No such file or directory" p), σ')
      end
  end.

(** [with open(p, 'w', encoding='utf-8') as f: f.write(s)]. The line
    separator written is LF, so the text is stored as it is. Mode ['w']
    creates a file that is not there (its directory is taken to exist). *)
Definition write_text (p : path) (s : text) : M unit := λ σ,
  let σ' := log (Open p W) σ in
  match target (files σ) p with
  | None =>
      (Raise (errno_exn OSError "[Errno 40] Too many levels of symbolic links" p), σ')
  | Some q =>
      match files σ !! q with
      | Some (File _ rd None) => (Return (), store q (File s rd None) σ')
      | Some (File _ _ (Some (OpenFails e))) => (Raise e, σ')
      | Some (File _ rd (Some (WriteFails e n))) =>
          (Raise e, store q (File (take n s) rd (Some (WriteFails e n))) σ')
      | Some (Dir _) =>
          (Raise (errno_exn IsADirectoryError "[Errno 21] Is a directory" p), σ')
      | Some (Link _) =>
          (Raise (errno_exn OSError "[Errno 40] Too many levels of symbolic links" p), σ')
      | Some (Unreachable e) => (Raise e, σ')
      | None => (Return (), store q (File s None None) σ')
      end
  end.

(** The wildcard character [*]. *)
Definition star_char : Ascii.ascii := Ascii.ascii_of_nat 42.

(** [fnmatch] for patterns made of literal characters and [*]. *)
Fixpoint fnmatch_list (pat name : list Ascii.ascii) : bool :=
  match pat with
  | [] => match name with [] => true | _ :: _ => false end
  | c :: pat' =>
      if Ascii.eqb c star_char then
        (fix star (name : list Ascii.ascii) : bool :=
           fnmatch_list pat' name ||
           match name with [] => false | _ :: name' => star name' end) name
      else
        match name with
        | [] => false
        | c' :: name' => Ascii.eqb c c' && fnmatch_list pat' name'
        end
  end.

Definition fnmatch (name pat : string) : bool :=
  fnmatch_list (String.list_ascii_of_string pat) (String.list_ascii_of_string name).

Definition is_listable (fs : gmap path node) (d : path) : bool :=
  match fs !! d with
  | Some (Dir None) => true
  | _ => false
  end.

(** [p.relative_to(base)] as a value: [None] where Python raises. *)
Fixpoint strip_base (base p : path) : option path :=
  match base, p with
  | [] , _ => Some p
  | _ :: _, [] => None
  | b :: base', c :: p' => if decide (b = c) then strip_base base' p' else None
  end.

(** The pattern applies to the last component of a path. *)
Definition name_matches (p : path) (pat : string) : bool :=
  match last p with
  | Some name => fnmatch name pat
  | None => false
  end.

(** [except PermissionError] takes the exception. *)
Definition is_permission (e : exn) : bool :=
  match exn_class_of e with
  | PermissionError => true
  | _ => false
  end.

Definition is_entry_of (d p : path) : bool :=
  match strip_base d p with
  | Some [_] => true
  | _ => false
  end.

(** [scandir(d)] on a directory that can be listed: the paths of its
    entries, in the order the tree lists them. *)
Definition scandir (fs : gmap path node) (d : path) : list path :=
  filter (λ p, is_entry_of d p = true) (map_to_list fs).*1.

(** The walk that [rglob] makes from the directory [d]: the entries of
    [d] whose name matches [pat], then the walk from each entry of [d]
    in turn. Only a directory is walked into, and a link is not taken
    for one. A directory that may not be listed is passed over; one on
    which listing fails otherwise ends the walk with that exception.
    [depth] bounds the length of the paths below [d]. *)
Fixpoint walk (depth : nat) (fs : gmap path node) (pat : string) (d : path)
    : generated path :=
  match depth with
  | O => Generated [] None
  | S depth' =>
      match fs !! d with
      | Some (Dir None) =>
          chain (Generated (filter (λ p, name_matches p pat = true) (scandir fs d)) None
                 :: (walk depth' fs pat <$> scandir fs d))
      | Some (Dir (Some e)) =>
          Generated [] (if is_permission e then None else Some e)
      | _ => Generated [] None
      end
  end.

(** No path of the tree is longer than this. *)
Definition depth (fs : gmap path node) : nat :=
  S (max_list (length <$> (map_to_list fs).*1)).

(** Whether a walk from [d] that nothing ends yields [d / rel]: every
    directory from [d] down to the one holding the entry can be listed,
    and the name of the entry matches [pat]. *)
Fixpoint selects (fs : gmap path node) (pat : string) (d rel : path) : bool :=
  match rel with
  | [] => false
  | name :: rel' =>
      is_listable fs d &&
      match rel' with
      | [] => fnmatch name pat
      | _ :: _ => selects fs pat (d ++ [name]) rel'
      end
  end.

Definition yielded (fs : gmap path node) (pat : string) (base p : path) : bool :=
  match strip_base base p with
  | Some rel => selects fs pat base rel
  | None => false
  end.

(** [base.rglob(pat)]. When [base] is missing or is not a directory
    pathlib yields nothing; a [stat] of [base] that fails with another
    error raises before anything is yielded. *)
Definition rglob (base : path) (pat : string) : M (generated path) := λ σ,
  match files σ !! base with
  | Some (Unreachable e) => (Raise e, σ)
  | _ => (Return (walk (depth (files σ)) (files σ) pat base), σ)
  end.

(** [p.relative_to(base)] *)
Definition relative_to (p base : path) : M path :=
  match strip_base base p with
  | Some rel => mret rel
  | None =>
      raise (Exn ValueError
               ("'" +:+ path_str p +:+ "' is not in the subpath of '"
                +:+ path_str base +:+ "'"))
  end.

(** The literals ['2025'] and ['2026'], as code points. *)
Definition year_old : text := Eval vm_compute in of_string "2025".
Definition year_new : text := Eval vm_compute in of_string "2026".

(** [def update_year_in_file(file_path)] *)
Definition update_year_in_file (file_path : path) : M Z :=
  try_except
    (content ← read_text file_path;
     let count_before := count content year_old in
     if (count_before =? 0)%Z then mret 0%Z
     else
       let new_content := replace content year_old year_new in
       write_text file_path new_content;;
       mret count_before)
    (λ e, print (LError file_path e);; mret 0%Z).

Definition base_dir : path := ["src"; "content"; "calculators"].

(** The body of the loop of [main], on the two counters. *)
Definition loop_body (mdx_file : path) (totals : Z * Z) : M (Z * Z) :=
  let '(total_files, total_replacements) := totals in
  replacements ← update_year_in_file mdx_file;
  if (0 <? replacements)%Z then
    let total_files := (total_files + 1)%Z in
    let total_replacements := (total_replacements + replacements)%Z in
    rel ← relative_to mdx_file base_dir;
    print (LOk rel replacements);;
    mret (total_files, total_replacements)
  else mret (total_files, total_replacements).

Definition print_summary (totals : Z * Z) : M unit :=
  print LSepOpen;;
  print LHeader;;
  print (LFiles totals.1);;
  print (LTotal totals.2);;
  print LSepClose.

(** [def main()] *)
Definition main : M unit :=
  mdx_files ← rglob base_dir "*.mdx";
  totals ← for_in mdx_files loop_body (0%Z, 0%Z);
  print_summary totals.

End Script.

Import Script.

(* ===================================================================== *)
(** * The vocabulary of the properties *)
(* ===================================================================== *)

(** The year 2025 stands at index [i] of [s]. *)
Definition occurs_at (s : text) (i : nat) : bool :=
  startswith year_old (drop i s).

(** The indices at which 2025 stands in [s], in increasing order. *)
Definition occurrences (s : text) : list nat :=
  filter (λ i, occurs_at s i = true) (seq 0 (length s)).

(** Index [j] lies inside an occurrence of 2025 in [s]. *)
Definition inside_occurrence (s : text) (j : nat) : Prop :=
  ∃ i, occurs_at s i = true ∧ i ≤ j < i + length year_old.

(** [s'] is [s] with every occurrence of 2025 replaced by 2026 and every
    character outside these occurrences unchanged. *)
Definition replaced_all (s s' : text) : Prop :=
  length s' = length s ∧
  (∀ i, occurs_at s i = true → startswith year_new (drop i s') = true) ∧
  (∀ j, ¬ inside_occurrence s j → s' !! j = s !! j).

(** A read or write error occurs on [file_path]: reading it raises, or
    it holds the year and writing the new text raises. *)
Definition io_error (σ : state) (file_path : path) (e : exn) : Prop :=
  (read_text file_path σ).1 = Raise e ∨
  ∃ content σ1,
    read_text file_path σ = (Return content, σ1) ∧
    occurrences content ≠ [] ∧
    (write_text file_path (replace content year_old year_new) σ1).1 = Raise e.

(** What [update_year_in_file] returns for [p] when called in [σ]. *)
Definition returned (σ : state) (p : path) : Z :=
  match (update_year_in_file p σ).1 with
  | Return n => n
  | Raise _ => 0%Z
  end.

(** The state in which the iteration after that of [p] begins. *)
Definition after_iteration (σ : state) (p : path) : state :=
  (loop_body p (0%Z, 0%Z) σ).2.

(** The calls of [update_year_in_file] the loop makes, each with the
    count it returned, in order. *)
Fixpoint calls (mdx_files : list path) (σ : state) : list (path * Z) :=
  match mdx_files with
  | [] => []
  | p :: rest => (p, returned σ p) :: calls rest (after_iteration σ p)
  end.

(** The calls that returned a count greater than zero. *)
Definition updated (cs : list (path * Z)) : list (path * Z) :=
  filter (λ c, (0 < c.2)%Z) cs.

(** The per-file lines among the printed ones: relative path and count. *)
Definition ok_lines (ls : list line) : list (path * Z) :=
  omap (λ l, match l with LOk rel n => Some (rel, n) | _ => None end) ls.

Definition sum_Z (l : list Z) : Z := foldr Z.add 0%Z l.

(** The path [print] shows for an enumerated file. *)
Definition rel_of (p : path) : path := default p (strip_base base_dir p).

(** The directories from [d] down to [d / rel] can be listed, [d / rel]
    itself apart. *)
Fixpoint reaches (fs : gmap path node) (d rel : path) : bool :=
  match rel with
  | [] => true
  | name :: rel' => is_listable fs d && reaches fs (d ++ [name]) rel'
  end.

(** What one call may leave in the trace. *)
Definition event_of (ps : list path) (ev : event) : Prop :=
  match ev with
  | Open q _ => q ∈ ps
  | Print (LError q _) => q ∈ ps
  | Print (LOk _ _) => True
  | Print _ => False
  end.

(** The entry at [p] is a file that is read and written without error. *)
Definition clean_file (fs : gmap path node) (p : path) : Prop :=
  ∃ s, fs !! p = Some (File s None None).

(** The entry at [p] is such a file and the year stands nowhere in it. *)
Definition settled_file (fs : gmap path node) (p : path) : Prop :=
  ∃ s, fs !! p = Some (File s None None) ∧ occurrences s = [].

(** The paths a sequence of events opens for reading. *)
Definition read_of (evs : list event) : list path :=
  omap (λ ev, match ev with Open p R => Some p | _ => None end) evs.

(** Between two states of an entry at most the text of a file differs:
    the entry is the same, or it is a file before and after, with the
    same faults. *)
Definition text_change (n n' : option node) : Prop :=
  n' = n
  ∨ ∃ s t rd wr, n = Some (File s rd wr) ∧ n' = Some (File t rd wr).

(** The exception [print] raises on a line, if it raises. *)
Definition print_raises (σ : state) (l : line) : option exn :=
  match (print l σ).1 with
  | Return _ => None
  | Raise e => Some e
  end.

(** The five lines of the summary. *)
Definition summary (total_files total_replacements : Z) : list line :=
  [LSepOpen; LHeader; LFiles total_files; LTotal total_replacements; LSepClose].

(* ===================================================================== *)
(** * Trees to run the script on *)
(* ===================================================================== *)

Definition a_mdx : path := base_dir ++ ["a.mdx"].
Definition b_mdx : path := base_dir ++ ["b.mdx"].
Definition c_txt : path := base_dir ++ ["c.txt"].
Definition locked_mdx : path := base_dir ++ ["guides"; "locked.mdx"].
Definition dos_mdx : path := base_dir ++ ["dos.mdx"].
Definition alias_mdx : path := base_dir ++ ["alias.mdx"].
Definition notes_txt : path := ["docs"; "notes.txt"].
Definition year_mdx : path := base_dir ++ ["año.mdx"].

(** A standard output that encodes everything, and one that encodes
    ASCII only. *)
Definition any_name (name : string) : bool := true.
Definition ascii_only (name : string) : bool :=
  forallb (λ c, (Ascii.N_of_ascii c <? 128)%N) (String.list_ascii_of_string name).

Definition a_content : text := of_string "Copyright 2025. Valid through 2025.".

Definition denied : exn := Exn PermissionError "[Errno 13] Permission denied".

(** The tree of the specification's example. *)
Definition example_tree : gmap path node :=
  <[ base_dir := Dir None ]>
  (<[ a_mdx := File a_content None None ]>
  (<[ b_mdx := File (of_string "no year here") None None ]>
  (<[ c_txt := File (of_string "2025") None None ]> ∅))).

Definition example : state := State example_tree [] any_name.

(** The same tree with a sub-directory that holds a file that may not
    be read. *)
Definition faulty : state :=
  State (<[ base_dir ++ ["guides"] := Dir None ]>
         (<[ locked_mdx := File (of_string "2025") (Some denied) None ]>
          example_tree)) [] any_name.


(** A tree whose one file holds the year and ends its line with CR LF. *)
Definition dos_content : text := year_old ++ [13%N; 10%N].
Definition dos : state :=
  State (<[ base_dir := Dir None ]>
         (<[ dos_mdx := File dos_content None None ]> ∅)) [] any_name.

(** A tree in which a name below the root that matches the pattern is a
    link to a file outside the root whose own name does not match. *)
Definition linked : state :=
  State (<[ base_dir := Dir None ]>
         (<[ alias_mdx := Link notes_txt ]>
         (<[ notes_txt := File year_old None None ]> ∅))) [] any_name.

(** A tree whose one file may not be read and has a name that standard
    output, which encodes ASCII only, cannot encode. *)
Definition unprintable : state :=
  State (<[ base_dir := Dir None ]>
         (<[ year_mdx := File year_old (Some denied) None ]> ∅)) []
    ascii_only.

(** The tree of the example with a sub-directory on which listing fails
    with an error that is not [PermissionError]. *)
Definition io_fault : exn := Exn OSError "[Errno 5] Input/output error".
Definition broken : state :=
  State (<[ base_dir ++ ["guides"] := Dir (Some io_fault) ]> example_tree) []
    any_name.

(** The tree of the example with a file outside the root. *)
Definition with_outside : state :=
  State (<[ notes_txt := File year_old None None ]> example_tree) [] any_name.


(** Refutes [H : x ∈ [y1; ...; yn]] when [x] differs from every [yi] by
    its constructor. *)
Ltac not_in_list H :=
  repeat (apply elem_of_cons in H as [H|H]; [discriminate H|]);
  by apply elem_of_nil in H.

(* ===================================================================== *)
(** * The script on the example of its specification *)
(* ===================================================================== *)

Example count_ex :
  count (of_string "Copyright 2025. Valid through 2025.") (of_string "2025") = 2%Z.
Proof. reflexivity. Qed.

Example replace_ex :
  replace (of_string "Copyright 2025. Valid through 2025.") (of_string "2025") (of_string "2026")
  = of_string "Copyright 2026. Valid through 2026.".
Proof. reflexivity. Qed.

Example fnmatch_ex :
  fnmatch "a.mdx" "*.mdx" = true ∧ fnmatch ".mdx" "*.mdx" = true
  ∧ fnmatch "c.txt" "*.mdx" = false ∧ fnmatch "a.mdx.bak" "*.mdx" = false
  ∧ fnmatch "A.MDX" "*.mdx" = false.
Proof. by vm_compute. Qed.

Example main_example :
  main example
  = (Return (),
     State (<[ a_mdx := File (of_string "Copyright 2026. Valid through 2026.")
                          None None ]> example_tree)
       [Open b_mdx R; Open a_mdx R; Open a_mdx W; Print (LOk ["a.mdx"] 2);
        Print LSepOpen; Print LHeader; Print (LFiles 1); Print (LTotal 2);
        Print LSepClose]
       any_name).
Proof. by vm_compute. Qed.

Example render_example :
  render <$> printed (main example).2
  = ["OK a.mdx: 2 reemplazos";
     String (Ascii.ascii_of_nat 10)
       "============================================================";
     "Resumen:";
     "  Archivos actualizados: 1";
     "  Total de reemplazos: 2";
     "============================================================"].
Proof. by vm_compute. Qed.

Example main_faulty :
  printed (main faulty).2
  = [LOk ["a.mdx"] 2; LError locked_mdx denied] ++ summary 1 2.
Proof. by vm_compute. Qed.

Example universal_newlines_ex :
  universal_newlines (of_string "a" ++ [13; 10]%N ++ of_string "b"
                      ++ [13]%N ++ of_string "c" ++ [10]%N)
  = of_string "a" ++ [10]%N ++ of_string "b" ++ [10]%N ++ of_string "c"
    ++ [10]%N.
Proof. reflexivity. Qed.

(** The line ending CR LF of a file that is rewritten becomes LF. *)
Example main_dos :
  files (main dos).2 !! dos_mdx
  = Some (File (year_new ++ [10%N]) None None).
Proof. by vm_compute. Qed.

(** A link below the root is followed: the file it names is rewritten. *)
Example main_linked :
  files (main linked).2 !! notes_txt = Some (File year_new None None)
  ∧ printed (main linked).2 = [LOk ["alias.mdx"] 1] ++ summary 1 1.
Proof. by vm_compute. Qed.

(** A directory on which listing fails ends the run, after the files
    found before it have been rewritten and without a summary. *)
Example main_broken :
  ∃ σ', main broken = (Raise io_fault, σ')
        ∧ files σ' !! a_mdx
          = Some (File (of_string "Copyright 2026. Valid through 2026.") None None)
        ∧ printed σ' = [LOk ["a.mdx"] 2].
Proof. eexists. by vm_compute. Qed.

(** A message that standard output cannot encode ends the run. *)
Example main_unprintable :
  ∃ e σ', main unprintable = (Raise e, σ')
          ∧ exn_class_of e = UnicodeEncodeError ∧ printed σ' = [].
Proof. eexists _, _. by vm_compute. Qed.

(* ===================================================================== *)
(** * Occurrences of the year in a text *)
(* ===================================================================== *)

Section Occurrences.

Lemma startswith_app (sub t : text) : startswith sub (sub ++ t) = true.
Proof.
  induction sub as [|a sub IH]; simpl; [done|].
  by rewrite N.eqb_refl, IH.
Qed.

Lemma startswith_inv (sub s : text) :
  startswith sub s = true → ∃ t, s = sub ++ t.
Proof.
  revert s. induction sub as [|a sub IH]; intros s H; simpl in *.
  - by exists s.
  - destruct s as [|b s]; [done|].
    apply andb_true_iff in H as [Hab H]. apply N.eqb_eq in Hab as ->.
    destruct (IH _ H) as [t ->]. by exists t.
Qed.

Lemma startswith_year_lookup (s : text) :
  startswith year_old s = true ↔
  s !! 0 = Some 50%N ∧ s !! 1 = Some 48%N ∧ s !! 2 = Some 50%N ∧ s !! 3 = Some 53%N.
Proof.
  split.
  - intros [t ->]%startswith_inv. done.
  - intros (H0 & H1 & H2 & H3).
    destruct s as [|a [|b [|c [|d t]]]]; by simplify_eq/=.
Qed.

Lemma occurs_at_lookup (s : text) (i : nat) :
  occurs_at s i = true ↔
  s !! i = Some 50%N ∧ s !! (i + 1) = Some 48%N ∧
  s !! (i + 2) = Some 50%N ∧ s !! (i + 3) = Some 53%N.
Proof.
  unfold occurs_at. rewrite startswith_year_lookup, !lookup_drop.
  by rewrite Nat.add_0_r.
Qed.

Lemma occurs_at_lt (s : text) (i : nat) :
  occurs_at s i = true → i + 4 ≤ length s.
Proof.
  intros (_ & _ & _ & H)%occurs_at_lookup.
  apply lookup_lt_Some in H. lia.
Qed.

(** 2025 has no border: two occurrences never overlap, so the
    occurrences that the scan counts are all of them. *)
Lemma occurrences_disjoint (s : text) (i j : nat) :
  occurs_at s i = true → occurs_at s j = true → i < j → i + 4 ≤ j.
Proof.
  intros Hi Hj Hlt.
  apply occurs_at_lookup in Hi as (Hi0 & Hi1 & Hi2 & Hi3).
  apply occurs_at_lookup in Hj as (Hj0 & Hj1 & Hj2 & Hj3).
  destruct (decide (j = i + 1)) as [->|]; [congruence|].
  destruct (decide (j = i + 2)) as [->|].
  { replace (i + 2 + 1) with (i + 3) in Hj1 by lia. congruence. }
  destruct (decide (j = i + 3)) as [->|]; [congruence|].
  lia.
Qed.

(** The scan of [count] and [replace], as an induction principle: a text
    is empty, or begins with 2025, or begins with a character at which
    2025 does not stand. *)
Lemma scan_ind (P : text → Prop) :
  P [] →
  (∀ t, P t → P (year_old ++ t)) →
  (∀ c t, startswith year_old (c :: t) = false → P t → P (c :: t)) →
  ∀ s, P s.
Proof.
  intros Hnil Hhit Hmiss s.
  remember (length s) as n eqn:Hn. revert s Hn.
  induction n as [n IH] using lt_wf_ind. intros s ->.
  destruct s as [|c t]; [done|].
  destruct (startswith year_old (c :: t)) eqn:Hsw.
  - apply startswith_inv in Hsw as [u Hu]. rewrite Hu. apply Hhit.
    apply (IH (length u)); [|done].
    apply (f_equal length) in Hu. rewrite length_app in Hu. simpl in *. lia.
  - apply Hmiss; [done|]. apply (IH (length t)); [simpl; lia|done].
Qed.

Lemma count_from_hit (t : text) :
  count_from year_old (year_old ++ t) = (1 + count_from year_old t)%Z.
Proof. cbn. simp count_from. cbn. by rewrite drop_0. Qed.

Lemma count_from_miss (c : char) (t : text) :
  startswith year_old (c :: t) = false →
  count_from year_old (c :: t) = count_from year_old t.
Proof. intros H. simp count_from. by rewrite H. Qed.

Lemma replace_from_hit (t : text) :
  replace_from year_old year_new (year_old ++ t)
  = year_new ++ replace_from year_old year_new t.
Proof. cbn. simp replace_from. cbn. by rewrite drop_0. Qed.

Lemma replace_from_miss (c : char) (t : text) :
  startswith year_old (c :: t) = false →
  replace_from year_old year_new (c :: t)
  = c :: replace_from year_old year_new t.
Proof. intros H. simp replace_from. by rewrite H. Qed.

Lemma filter_fmap {A B} (f : A → B) (P : B → Prop) `{!∀ y, Decision (P y)}
    (l : list A) :
  filter P (f <$> l) = f <$> filter (λ x, P (f x)) l.
Proof.
  induction l as [|x l IH]; [done|].
  rewrite fmap_cons, !filter_cons, IH. by case_decide.
Qed.

Lemma occurrences_cons (c : char) (t : text) :
  occurrences (c :: t)
  = (if occurs_at (c :: t) 0 then [0] else []) ++ (S <$> occurrences t).
Proof.
  unfold occurrences. simpl length. rewrite <- cons_seq, filter_cons.
  rewrite <- fmap_S_seq, filter_fmap.
  destruct (occurs_at (c :: t) 0); by case_decide.
Qed.

Lemma occurrences_hit (t : text) :
  occurrences (year_old ++ t) = 0 :: ((λ i, 4 + i) <$> occurrences t).
Proof.
  unfold year_old. simpl app. rewrite !occurrences_cons. simpl.
  f_equal. by rewrite <- !list_fmap_compose.
Qed.

Lemma occurrences_miss (c : char) (t : text) :
  startswith year_old (c :: t) = false →
  occurrences (c :: t) = S <$> occurrences t.
Proof.
  intros H. rewrite occurrences_cons. unfold occurs_at. by rewrite drop_0, H.
Qed.

(** [count] returns the number of places where 2025 stands. *)
Lemma count_occurrences (s : text) :
  count s year_old = Z.of_nat (length (occurrences s)).
Proof.
  change (count s year_old) with (count_from year_old s).
  induction s as [|t IH|c t Hmiss IH] using scan_ind.
  - by simp count_from.
  - rewrite count_from_hit, IH, occurrences_hit. simpl length.
    rewrite length_fmap. lia.
  - rewrite count_from_miss, IH, occurrences_miss by done.
    by rewrite length_fmap.
Qed.


Lemma count_zero_iff (s : text) :
  count s year_old = 0%Z ↔ occurrences s = [].
Proof.
  rewrite count_occurrences. destruct (occurrences s); simpl; split; (done || lia).
Qed.

(** [replace] character by character: the last digit of every occurrence
    becomes 6 and everything else stays. *)
Lemma replace_lookup (s : text) (i : nat) :
  replace s year_old year_new !! i
  = if (3 <=? i) && occurs_at s (i - 3) then Some 54%N else s !! i.
Proof.
  change (replace s year_old year_new) with (replace_from year_old year_new s).
  revert i. induction s as [|t IH|c t Hmiss IH] using scan_ind; intros i.
  - simp replace_from. unfold occurs_at. rewrite drop_nil.
    by rewrite andb_false_r.
  - rewrite replace_from_hit.
    destruct i as [|[|[|[|i]]]]; [done..|].
    change ((year_new ++ replace_from year_old year_new t) !! S (S (S (S i))))
      with (replace_from year_old year_new t !! i).
    change ((year_old ++ t) !! S (S (S (S i)))) with (t !! i).
    rewrite IH. destruct i as [|[|[|i]]]; [reflexivity..|].
    simpl Nat.sub. by rewrite Nat.sub_0_r.
  - rewrite replace_from_miss by done.
    destruct i as [|i]; [done|].
    change ((c :: replace_from year_old year_new t) !! S i)
      with (replace_from year_old year_new t !! i).
    change ((c :: t) !! S i) with (t !! i).
    rewrite IH. destruct i as [|[|[|i]]]; [done..| |].
    + unfold occurs_at. simpl Nat.leb. simpl Nat.sub.
      by rewrite !drop_0, Hmiss.
    + simpl Nat.sub. by rewrite Nat.sub_0_r.
Qed.

Lemma replace_length (s : text) :
  length (replace s year_old year_new) = length s.
Proof.
  change (replace s year_old year_new) with (replace_from year_old year_new s).
  induction s as [|t IH|c t Hmiss IH] using scan_ind.
  - by simp replace_from.
  - rewrite replace_from_hit, !length_app, IH. done.
  - rewrite replace_from_miss by done. simpl. by rewrite IH.
Qed.

Lemma startswith_new_lookup (s : text) :
  startswith year_new s = true ↔
  s !! 0 = Some 50%N ∧ s !! 1 = Some 48%N ∧ s !! 2 = Some 50%N ∧ s !! 3 = Some 54%N.
Proof.
  split.
  - intros [t ->]%startswith_inv. done.
  - intros (H0 & H1 & H2 & H3).
    destruct s as [|a [|b [|c [|d t]]]]; by simplify_eq/=.
Qed.

Lemma replace_lookup_outside (s : text) (j : nat) :
  (3 ≤ j → occurs_at s (j - 3) = false) →
  replace s year_old year_new !! j = s !! j.
Proof.
  intros H. rewrite replace_lookup.
  destruct (Nat.leb_spec 3 j) as [Hle|Hlt]; [|done].
  by rewrite (H Hle).
Qed.

Lemma replace_lookup_last (s : text) (i : nat) :
  occurs_at s i = true →
  replace s year_old year_new !! (i + 3) = Some 54%N.
Proof.
  intros H. rewrite replace_lookup.
  replace (i + 3 - 3) with i by lia. rewrite H.
  by destruct (Nat.leb_spec 3 (i + 3)) as [Hle|Hlt]; [|lia].
Qed.

(** [replace] turns every 2025 into 2026 and changes nothing else. *)
Lemma replace_replaced_all (s : text) :
  replaced_all s (replace s year_old year_new).
Proof.
  split; [apply replace_length|]. split.
  - intros i Hi.
    assert (∀ k, k < 3 →
      replace s year_old year_new !! (i + k) = s !! (i + k)) as Hsame.
    { intros k Hk. apply replace_lookup_outside. intros Hle.
      destruct (occurs_at s (i + k - 3)) eqn:Hj; [|done].
      pose proof (occurrences_disjoint s (i + k - 3) i Hj Hi). lia. }
    apply startswith_new_lookup. rewrite !lookup_drop.
    pose proof Hi as (H0 & H1 & H2 & H3)%occurs_at_lookup.
    rewrite !Hsame by lia. rewrite Nat.add_0_r.
    by rewrite replace_lookup_last.
  - intros j Hout. apply replace_lookup_outside. intros Hle.
    destruct (occurs_at s (j - 3)) eqn:Hj; [|done].
    destruct Hout. exists (j - 3). simpl. split; [done|lia].
Qed.

(** After the replacement 2025 stands nowhere. *)
Lemma replace_no_occurrence (s : text) (i : nat) :
  occurs_at (replace s year_old year_new) i = false.
Proof.
  destruct (occurs_at (replace s year_old year_new) i) eqn:Hocc; [|done].
  apply occurs_at_lookup in Hocc as (H0 & H1 & H2 & H3).
  rewrite replace_lookup in H0, H1, H2, H3.
  replace (i + 3 - 3) with i in H3 by lia.
  assert (occurs_at s i = false) as Hi.
  { destruct (occurs_at s i); [|done].
    destruct (Nat.leb_spec 3 (i + 3)); [by simpl in H3|lia]. }
  destruct ((3 <=? i) && occurs_at s (i - 3)); [done|].
  destruct ((3 <=? i + 1) && occurs_at s (i + 1 - 3)); [done|].
  destruct ((3 <=? i + 2) && occurs_at s (i + 2 - 3)); [done|].
  rewrite Hi, andb_false_r in H3.
  assert (occurs_at s i = true) by by apply occurs_at_lookup.
  congruence.
Qed.

Lemma occurrences_replace (s : text) :
  occurrences (replace s year_old year_new) = [].
Proof.
  apply elem_of_nil_inv. intros i [Hi _]%list_elem_of_filter.
  by rewrite replace_no_occurrence in Hi.
Qed.

Lemma count_replace (s : text) :
  count (replace s year_old year_new) year_old = 0%Z.
Proof. apply count_zero_iff, occurrences_replace. Qed.

End Occurrences.

(* ===================================================================== *)
(** * Line endings *)
(* ===================================================================== *)

Section Newlines.

(** The translation does not touch a run of characters that are neither
    CR nor LF. *)
Lemma startswith_translate (digits s : text) :
  10%N ∉ digits → 13%N ∉ digits →
  startswith digits (translate_newlines false s) = startswith digits s.
Proof.
  revert s. induction digits as [|a digits IH]; intros s Hlf Hcr; [done|].
  apply not_elem_of_cons in Hlf as [Hlf Hlf'].
  apply not_elem_of_cons in Hcr as [Hcr Hcr'].
  destruct s as [|c s]; [done|]. simpl.
  destruct (N.eqb_spec c 13) as [->|Hc]; simpl.
  - assert (a ≠ 10%N) as ->%N.eqb_neq by congruence.
    by assert (a ≠ 13%N) as ->%N.eqb_neq by congruence.
  - rewrite andb_false_r. simpl. by rewrite IH.
Qed.

Lemma year_old_plain : (10%N ∉ year_old) ∧ (13%N ∉ year_old).
Proof. split; intros H; not_in_list H. Qed.

Lemma translate_hit (after_cr : bool) (t : text) :
  translate_newlines after_cr (year_old ++ t)
  = year_old ++ translate_newlines false t.
Proof. done. Qed.

(** The year occurs as often in the text read as in the characters of
    the file. *)
Lemma count_translate (s : text) :
  ∀ after_cr,
    count_from year_old (translate_newlines after_cr s)
    = count_from year_old s.
Proof.
  induction s as [|t IH|c t Hmiss IH] using scan_ind; intros after_cr.
  - done.
  - by rewrite translate_hit, !count_from_hit, IH.
  - rewrite (count_from_miss c t Hmiss). simpl.
    destruct (N.eqb_spec c 13) as [->|Hc].
    { rewrite count_from_miss by done. apply IH. }
    destruct ((c =? 10)%N && after_cr); [apply IH|].
    rewrite count_from_miss; [apply IH|].
    destruct year_old_plain as [Hlf Hcr].
    pose proof (startswith_translate year_old (c :: t) Hlf Hcr) as Heq.
    cbn [translate_newlines] in Heq. apply N.eqb_neq in Hc.
    rewrite Hc, andb_false_r in Heq. by rewrite Heq.
Qed.

Lemma count_universal_newlines (s : text) :
  count (universal_newlines s) year_old = count s year_old.
Proof. apply count_translate. Qed.

Lemma occurrences_universal_newlines (s : text) :
  length (occurrences (universal_newlines s)) = length (occurrences s).
Proof.
  apply Nat2Z.inj. rewrite <- !count_occurrences.
  apply count_universal_newlines.
Qed.

Lemma translate_no_cr (s : text) :
  ∀ after_cr, 13%N ∉ translate_newlines after_cr s.
Proof.
  induction s as [|c s IH]; intros after_cr; simpl.
  - apply not_elem_of_nil.
  - destruct (N.eqb_spec c 13) as [->|Hc].
    { apply not_elem_of_cons. split; [done|apply IH]. }
    destruct ((c =? 10)%N && after_cr); [apply IH|].
    apply not_elem_of_cons. split; [done|apply IH].
Qed.

(** A text without CR is read as it is. *)
Lemma universal_newlines_plain (s : text) :
  13%N ∉ s → universal_newlines s = s.
Proof.
  unfold universal_newlines. induction s as [|c s IH]; intros Hcr; [done|].
  apply not_elem_of_cons in Hcr as [Hc Hcr]. simpl.
  destruct (N.eqb_spec c 13) as [->|_]; [done|].
  rewrite andb_false_r. by rewrite IH.
Qed.

Lemma replace_no_cr (s : text) :
  13%N ∉ s → 13%N ∉ replace s year_old year_new.
Proof.
  intros Hcr [i Hi]%list_elem_of_lookup.
  rewrite replace_lookup in Hi.
  destruct ((3 <=? i) && occurs_at s (i - 3)); [done|].
  apply Hcr. by eapply list_elem_of_lookup_2.
Qed.

(** What is written is read back as it is. *)
Lemma universal_newlines_replace (s : text) :
  universal_newlines (replace (universal_newlines s) year_old year_new)
  = replace (universal_newlines s) year_old year_new.
Proof. apply universal_newlines_plain, replace_no_cr, translate_no_cr. Qed.

End Newlines.

(* ===================================================================== *)
(** * Links *)
(* ===================================================================== *)

Section Links.

Lemma text_change_refl (n : option node) : text_change n n.
Proof. by left. Qed.

Lemma text_change_trans (n1 n2 n3 : option node) :
  text_change n1 n2 → text_change n2 n3 → text_change n1 n3.
Proof.
  intros [->|(s & t & rd & wr & -> & ->)] [->|(s' & t' & rd' & wr' & H & ->)].
  - by left.
  - right. by exists s', t', rd', wr'.
  - right. by exists s, t, rd, wr.
  - injection H as <- <- <-. right. by exists s, t', rd, wr.
Qed.

Lemma text_change_link (n n' : option node) (q : path) :
  text_change n n' → n = Some (Link q) ↔ n' = Some (Link q).
Proof. intros [->|(s & t & rd & wr & -> & ->)]; [done|]. by split. Qed.

Lemma text_change_dir (n n' : option node) (ls : option exn) :
  text_change n n' → n = Some (Dir ls) ↔ n' = Some (Dir ls).
Proof. intros [->|(s & t & rd & wr & -> & ->)]; [done|]. by split. Qed.

Lemma text_change_is_Some (n n' : option node) :
  text_change n n' → is_Some n ↔ is_Some n'.
Proof. intros [->|(s & t & rd & wr & -> & ->)]; [done|]. by split. Qed.

(** A path at which no link stands names the entry there. *)
Lemma resolve_here (n : nat) (fs : gmap path node) (p : path) :
  (∀ q, fs !! p ≠ Some (Link q)) → resolve n fs p = Some p.
Proof.
  intros Hp. destruct n; simpl;
    by destruct (fs !! p) as [[data rd wr|ls|q|e]|] eqn:Heq;
      try (by destruct (Hp q)).
Qed.

(** The entry that a path names is not a link. *)
Lemma resolve_not_link (n : nat) (fs : gmap path node) (p q t : path) :
  resolve n fs p = Some q → fs !! q ≠ Some (Link t).
Proof.
  revert p. induction n as [|n IH]; intros p; simpl.
  - destruct (fs !! p) as [[data rd wr|ls|q'|e]|] eqn:Heq; intros ?;
      simplify_eq; congruence.
  - destruct (fs !! p) as [[data rd wr|ls|q'|e]|] eqn:Heq; intros ?;
      simplify_eq; try congruence. by eapply IH.
Qed.

(** Which entry a path names depends on the links of the tree only. *)
Lemma resolve_text_change (n : nat) (fs fs' : gmap path node) (p : path) :
  (∀ q, text_change (fs !! q) (fs' !! q)) →
  resolve n fs' p = resolve n fs p.
Proof.
  intros Hsame. revert p. induction n as [|n IH]; intros p; simpl.
  - destruct (Hsame p) as [->|(s & t & rd & wr & -> & ->)]; done.
  - destruct (Hsame p) as [->|(s & t & rd & wr & -> & ->)]; [|done].
    by destruct (fs !! p) as [[data rd wr|ls|q'|e]|].
Qed.

Lemma target_text_change (fs fs' : gmap path node) (p : path) :
  (∀ q, text_change (fs !! q) (fs' !! q)) →
  target fs' p = target fs p.
Proof. apply resolve_text_change. Qed.

Lemma target_file (fs : gmap path node) (p : path) (s : text) rd wr :
  fs !! p = Some (File s rd wr) → target fs p = Some p.
Proof. intros Hp. apply resolve_here. intros q. by rewrite Hp. Qed.

End Links.

(* ===================================================================== *)
(** * One file *)
(* ===================================================================== *)

Section OneFile.

Lemma print_raises_None (l : line) (σ : state) :
  print_raises σ l = None → print l σ = (Return (), log (Print l) σ).
Proof. unfold print_raises, print. by destruct (accepts σ l). Qed.

Lemma print_raises_Some (l : line) (σ : state) (e : exn) :
  print_raises σ l = Some e → print l σ = (Raise e, σ).
Proof.
  unfold print_raises, print. destruct (accepts σ l); [done|].
  simpl. by intros [= <-].
Qed.


(** The handler of [update_year_in_file]. *)
Lemma handler_effect (p : path) (e : exn) (σ : state) :
  (print (LError p e);; mret 0%Z) σ
  = match print_raises σ (LError p e) with
    | None => (Return 0%Z, log (Print (LError p e)) σ)
    | Some e' => (Raise e', σ)
    end.
Proof.
  unfold mbind, M_bind.
  destruct (print_raises σ (LError p e)) as [e'|] eqn:Hprint.
  - by rewrite (print_raises_Some _ _ _ Hprint).
  - by rewrite (print_raises_None _ _ Hprint).
Qed.

(** [update_year_in_file], with the [try] resolved. *)
Lemma update_year_in_file_unfold (file_path : path) (σ : state) :
  update_year_in_file file_path σ =
  match read_text file_path σ with
  | (Raise e, σ1) => (print (LError file_path e);; mret 0%Z) σ1
  | (Return content, σ1) =>
      if (count content year_old =? 0)%Z then (Return 0%Z, σ1)
      else
        match write_text file_path (replace content year_old year_new) σ1 with
        | (Return _, σ2) => (Return (count content year_old), σ2)
        | (Raise e, σ2) => (print (LError file_path e);; mret 0%Z) σ2
        end
  end.
Proof.
  unfold update_year_in_file, try_except, mbind, M_bind, mret, M_ret.
  destruct (read_text file_path σ) as [[content|e] σ1]; [|done].
  destruct (count content year_old =? 0)%Z; [done|].
  by destruct (write_text _ _ σ1) as [[[]|e] σ2].
Qed.

Lemma read_text_trace (p : path) (σ : state) :
  (read_text p σ).2 = log (Open p R) σ.
Proof.
  unfold read_text. destruct (target (files σ) p) as [q|]; [|done].
  by destruct (files σ !! q) as [[data [e|] wr|ls|q'|e]|].
Qed.

Lemma read_text_ok (p : path) (σ : state) (data : text) wr :
  files σ !! p = Some (File data None wr) →
  read_text p σ = (Return (universal_newlines data), log (Open p R) σ).
Proof.
  intros Hp. unfold read_text. by rewrite (target_file _ _ _ _ _ Hp), Hp.
Qed.

Lemma read_text_inv (p : path) (σ σ1 : state) (content : text) :
  read_text p σ = (Return content, σ1) →
  σ1 = log (Open p R) σ
  ∧ ∃ q data wr, target (files σ) p = Some q
                 ∧ files σ !! q = Some (File data None wr)
                 ∧ content = universal_newlines data.
Proof.
  unfold read_text. destruct (target (files σ) p) as [q|]; [|done].
  destruct (files σ !! q) as [[data [e|] wr|ls|q'|e]|] eqn:Hq;
    intros ?; simplify_eq.
  split; [done|]. by exists q, data, wr.
Qed.



Lemma write_text_frame (p q : path) (s : text) (σ : state) :
  target (files σ) p ≠ Some q →
  files (write_text p s σ).2 !! q = files σ !! q.
Proof.
  intros Hne. unfold write_text.
  destruct (target (files σ) p) as [q'|]; [|done].
  assert (q' ≠ q) by congruence.
  destruct (files σ !! q') as [[data rd [[e|e n]|]|ls|t|e]|]; simpl;
    by rewrite ?lookup_insert_ne.
Qed.

(** Writing a file that is there changes its text at most. *)
Lemma write_text_change (p q t : path) (s : text) (σ : state) :
  target (files σ) p = Some t → is_Some (files σ !! t) →
  text_change (files σ !! q) (files (write_text p s σ).2 !! q).
Proof.
  intros Ht [n Hn]. unfold write_text. rewrite Ht, Hn.
  destruct (decide (q = t)) as [->|Hne].
  - rewrite Hn.
    destruct n as [data rd [[e|e k]|]|ls|t'|e]; simpl;
      rewrite ?lookup_insert_eq, ?Hn; try (by left);
      right; by eexists _, _, _, _.
  - destruct n as [data rd [[e|e k]|]|ls|t'|e]; simpl;
      rewrite ?lookup_insert_ne by done; by left.
Qed.



Lemma printed_trace (σ σ' : state) (p : path) (m : mode) :
  trace σ' = trace σ ++ [Open p m] → printed σ' = printed σ.
Proof. unfold printed, lines_of. intros ->. by rewrite omap_app, app_nil_r. Qed.

Lemma opened_w_log_read (p : path) (σ : state) :
  opened_w (log (Open p R) σ) = opened_w σ.
Proof. unfold opened_w, written_of. simpl. by rewrite omap_app, app_nil_r. Qed.

Lemma untouched_if_absent_aux
    (σ : state) (file_path : path) (content : text) (wr : option write_fault) :
  files σ !! file_path = Some (File content None wr) →
  occurrences content = [] →
  update_year_in_file file_path σ = (Return 0%Z, log (Open file_path R) σ).
Proof.
  intros Hfile Hnone.
  rewrite update_year_in_file_unfold, (read_text_ok _ _ _ _ Hfile).
  apply count_zero_iff in Hnone.
  by rewrite count_universal_newlines, Hnone.
Qed.

End OneFile.

(* ===================================================================== *)
(** * One call *)
(* ===================================================================== *)

Section OneCall.

(** What a call of [update_year_in_file] does, case by case: reading
    raises; or the file is read and the year does not occur in it; or it
    occurs and the file is written, or writing it raises. *)
Lemma update_year_in_file_cases (p : path) (σ : state) :
  (∃ e, (read_text p σ).1 = Raise e
        ∧ update_year_in_file p σ
          = (print (LError p e);; mret 0%Z) (log (Open p R) σ))
  ∨ (∃ q data wr,
        target (files σ) p = Some q
        ∧ files σ !! q = Some (File data None wr)
        ∧ read_text p σ = (Return (universal_newlines data), log (Open p R) σ)
        ∧ ((count (universal_newlines data) year_old = 0%Z
            ∧ update_year_in_file p σ = (Return 0%Z, log (Open p R) σ))
           ∨ (count (universal_newlines data) year_old ≠ 0%Z
              ∧ match wr with
                | None =>
                    update_year_in_file p σ
                    = (Return (count (universal_newlines data) year_old),
                       store q (File (replace (universal_newlines data) year_old year_new)
                                  None None)
                         (log (Open p W) (log (Open p R) σ)))
                | Some (OpenFails e) =>
                    (write_text p (replace (universal_newlines data) year_old year_new)
                       (log (Open p R) σ)).1 = Raise e
                    ∧ update_year_in_file p σ
                      = (print (LError p e);; mret 0%Z)
                          (log (Open p W) (log (Open p R) σ))
                | Some (WriteFails e n) =>
                    (write_text p (replace (universal_newlines data) year_old year_new)
                       (log (Open p R) σ)).1 = Raise e
                    ∧ update_year_in_file p σ
                      = (print (LError p e);; mret 0%Z)
                          (store q (File (take n (replace (universal_newlines data)
                                                    year_old year_new))
                                      None (Some (WriteFails e n)))
                             (log (Open p W) (log (Open p R) σ)))
                end))).
Proof.
  rewrite update_year_in_file_unfold.
  pose proof (read_text_trace p σ) as Hr.
  destruct (read_text p σ) as [[content|e] σ1] eqn:Hread; simpl in Hr; subst σ1.
  - right. apply read_text_inv in Hread as (_ & q & data & wr & Ht & Hq & ->).
    exists q, data, wr. split; [done|]. split; [done|]. split; [done|].
    destruct (Z.eqb_spec (count (universal_newlines data) year_old) 0)
      as [Hz|Hnz]; [by left|right].
    split; [done|]. unfold write_text. cbn [files log]. rewrite Ht, Hq.
    by destruct wr as [[e|e n]|].
  - left. by exists e.
Qed.

(** What the handler leaves behind. *)
Lemma handler_state (p : path) (e : exn) (σ : state) :
  ∃ evs, ((print (LError p e);; mret 0%Z) σ).2
         = State (files σ) (trace σ ++ evs) (encodes σ)
         ∧ Forall (event_of [p]) evs
         ∧ ok_lines (lines_of evs) = []
         ∧ read_of evs = [].
Proof.
  rewrite handler_effect.
  destruct (print_raises σ (LError p e)).
  - exists []. rewrite app_nil_r. by destruct σ.
  - exists [Print (LError p e)]. split; [done|]. split; [|done].
    repeat constructor.
Qed.


(** A call opens the path it is given and no other, prints no line but
    the message of its handler, and changes the entry that its path
    names and no other. *)
Lemma update_year_in_file_effect (p : path) (σ : state) :
  ∃ evs,
    trace (update_year_in_file p σ).2 = trace σ ++ evs
    ∧ Forall (event_of [p]) evs
    ∧ ok_lines (lines_of evs) = []
    ∧ read_of evs = [p]
    ∧ encodes (update_year_in_file p σ).2 = encodes σ
    ∧ (∀ q, target (files σ) p ≠ Some q →
            files (update_year_in_file p σ).2 !! q = files σ !! q)
    ∧ (∀ q, text_change (files σ !! q) (files (update_year_in_file p σ).2 !! q)).
Proof.
  assert (event_of [p] (Open p R)) as HR by (simpl; by left).
  assert (event_of [p] (Open p W)) as HW by (simpl; by left).
  destruct (update_year_in_file_cases p σ)
    as [(e & _ & ->)
       |(q & data & wr & Ht & Hq & _ & [[_ ->]|[_ Hw]])].
  - destruct (handler_state p e (log (Open p R) σ))
      as (evs & -> & Hev & Hok & Hrd).
    exists (Open p R :: evs). cbn. rewrite <- app_assoc.
    split; [done|]. split; [by constructor|]. split; [done|].
    split; [by f_equal|].
    split; [done|]. split; [done|]. intros q'. by left.
  - exists [Open p R]. cbn. split; [done|]. split; [by repeat constructor|].
    split; [done|]. split; [done|].
    split; [done|]. split; [done|]. intros q'. by left.
  - assert (∀ t q', text_change (files σ !! q')
                       (<[q := File t None wr]> (files σ) !! q')) as Hchange.
    { intros t q'. destruct (decide (q' = q)) as [->|Hne].
      - rewrite lookup_insert_eq, Hq. right. by eexists _, _, _, _.
      - rewrite lookup_insert_ne by done. by left. }
    destruct wr as [[e|e n]|].
    + destruct Hw as [_ ->].
      destruct (handler_state p e (log (Open p W) (log (Open p R) σ)))
        as (evs & -> & Hev & Hok & Hrd).
      exists (Open p R :: Open p W :: evs). cbn. rewrite <- !app_assoc.
      split; [done|]. split; [by repeat constructor|]. split; [done|].
      split; [by f_equal|].
      split; [done|]. split; [done|]. intros q'. by left.
    + destruct Hw as [_ ->].
      destruct (handler_state p e
                  (store q (File (take n (replace (universal_newlines data)
                                            year_old year_new))
                              None (Some (WriteFails e n)))
                     (log (Open p W) (log (Open p R) σ))))
        as (evs & -> & Hev & Hok & Hrd).
      exists (Open p R :: Open p W :: evs). cbn. rewrite <- !app_assoc.
      split; [done|]. split; [by repeat constructor|]. split; [done|].
      split; [by f_equal|].
      split; [done|]. split.
      * intros q' Hne. rewrite lookup_insert_ne; [done|].
        intros ->. apply Hne. exact Ht.
      * apply Hchange.
    + rewrite Hw. exists [Open p R; Open p W]. cbn. rewrite <- !app_assoc.
      split; [done|]. split; [by repeat constructor|]. split; [done|].
      split; [done|].
      split; [done|]. split.
      * intros q' Hne. rewrite lookup_insert_ne; [done|].
        intros ->. apply Hne. exact Ht.
      * apply Hchange.
Qed.


End OneCall.

(* ===================================================================== *)
(** * The walk of the tree *)
(* ===================================================================== *)

Section Walk.

Lemma strip_base_app (base p rel : path) :
  strip_base base p = Some rel → p = base ++ rel.
Proof.
  revert p. induction base as [|b base IH]; intros p H; simpl in *.
  - by simplify_eq.
  - destruct p as [|c p]; [done|]. case_decide; [|done]. subst.
    f_equal. by apply IH.
Qed.

Lemma strip_base_app_2 (base rel : path) :
  strip_base base (base ++ rel) = Some rel.
Proof.
  induction base as [|b base IH]; simpl; [by destruct rel|].
  by rewrite decide_True.
Qed.

Lemma is_entry_of_spec (d p : path) :
  is_entry_of d p = true ↔ ∃ name, p = d ++ [name].
Proof.
  unfold is_entry_of. split.
  - destruct (strip_base d p) as [[|name [|]]|] eqn:Heq; try done.
    intros _. exists name. by apply strip_base_app.
  - intros [name ->]. by rewrite strip_base_app_2.
Qed.

Lemma elem_of_scandir (fs : gmap path node) (d p : path) :
  p ∈ scandir fs d ↔ (∃ name, p = d ++ [name]) ∧ is_Some (fs !! p).
Proof.
  unfold scandir.
  rewrite list_elem_of_filter, is_entry_of_spec, list_elem_of_fmap.
  split.
  - intros [Hname ([q n] & -> & Hin%elem_of_map_to_list)].
    split; [done|]. by exists n.
  - intros [Hname [n Hn]]. split; [done|]. exists (p, n).
    split; [done|]. by apply elem_of_map_to_list.
Qed.

Lemma NoDup_scandir (fs : gmap path node) (d : path) : NoDup (scandir fs d).
Proof. apply NoDup_filter, NoDup_fst_map_to_list. Qed.

Lemma name_matches_entry (d : path) (name pat : string) :
  name_matches (d ++ [name]) pat = fnmatch name pat.
Proof. unfold name_matches. by rewrite last_snoc. Qed.

Lemma chain_yields {A} (gs : list (generated A)) (x : A) :
  x ∈ yields (chain gs) → ∃ g, g ∈ gs ∧ x ∈ yields g.
Proof.
  induction gs as [|g gs IH]; simpl; [by intros ?%elem_of_nil|].
  destruct (ends g) as [e|].
  - intros Hx. exists g. split; [by left|done].
  - simpl. intros [Hx|Hx]%elem_of_app.
    + exists g. split; [by left|done].
    + destruct (IH Hx) as (g' & Hg' & Hx'). exists g'. split; [by right|done].
Qed.

Lemma chain_ends_Some {A} (gs : list (generated A)) (e : exn) :
  ends (chain gs) = Some e → ∃ g, g ∈ gs ∧ ends g = Some e.
Proof.
  induction gs as [|g gs IH]; simpl; [done|].
  destruct (ends g) as [e'|] eqn:Hg.
  - intros He. exists g. split; [by left|congruence].
  - simpl. intros (g' & Hg' & He)%IH. exists g'. split; [by right|done].
Qed.

Lemma chain_ends_None {A} (gs : list (generated A)) :
  ends (chain gs) = None →
  (∀ g, g ∈ gs → ends g = None)
  ∧ (∀ g x, g ∈ gs → x ∈ yields g → x ∈ yields (chain gs)).
Proof.
  induction gs as [|g gs IH]; simpl.
  - intros _. split; [by intros g ?%elem_of_nil|by intros g x ?%elem_of_nil].
  - destruct (ends g) as [e'|] eqn:Hg; [congruence|]. simpl.
    intros [Hnone Hall]%IH. split.
    + intros g' [->|Hg']%elem_of_cons; [done|by apply Hnone].
    + intros g' x [->|Hg']%elem_of_cons Hx; apply elem_of_app;
        [by left|right; by eapply Hall].
Qed.

Lemma chain_NoDup {A B} (f : A → generated B) (xs : list A) :
  NoDup xs →
  (∀ x, x ∈ xs → NoDup (yields (f x))) →
  (∀ x y b, x ∈ xs → y ∈ xs → b ∈ yields (f x) → b ∈ yields (f y) → x = y) →
  NoDup (yields (chain (f <$> xs))).
Proof.
  induction 1 as [|x xs Hx Hxs IH]; intros Heach Hdisj; simpl.
  - constructor.
  - destruct (ends (f x)); [apply Heach; by left|]. simpl.
    apply NoDup_app. split; [apply Heach; by left|]. split.
    + intros b Hb (g & (y & -> & Hy)%list_elem_of_fmap & Hb')%chain_yields.
      assert (x = y) as <-; [|done].
      apply (Hdisj x y b); [by left|by right|done|done].
    + apply IH.
      * intros y Hy. apply Heach. by right.
      * intros y z b Hy Hz. apply Hdisj; by right.
Qed.

Lemma selects_nil (fs : gmap path node) (pat : string) (d : path) :
  selects fs pat d [] = false.
Proof. done. Qed.

Lemma selects_cons (fs : gmap path node) (pat : string) (d rel : path)
    (name : string) :
  selects fs pat d (name :: rel)
  = is_listable fs d &&
    match rel with
    | [] => fnmatch name pat
    | _ :: _ => selects fs pat (d ++ [name]) rel
    end.
Proof. done. Qed.

Lemma is_listable_spec (fs : gmap path node) (d : path) :
  is_listable fs d = true ↔ fs !! d = Some (Dir None).
Proof.
  unfold is_listable.
  destruct (fs !! d) as [[data rd wr|[e|]|q|e]|]; split; congruence.
Qed.

Lemma walk_listable (n : nat) (fs : gmap path node) (pat : string) (d : path) :
  fs !! d = Some (Dir None) →
  walk (S n) fs pat d
  = chain (Generated (filter (λ p, name_matches p pat = true) (scandir fs d)) None
           :: (walk n fs pat <$> scandir fs d)).
Proof. simpl. by intros ->. Qed.

(** What the walk yields lies below the directory it starts from, is an
    entry of the tree, and is selected. *)
Lemma walk_yields (fs : gmap path node) (pat : string) (n : nat) :
  ∀ (d p : path),
    p ∈ yields (walk n fs pat d) →
    ∃ rel, p = d ++ rel ∧ selects fs pat d rel = true ∧ is_Some (fs !! p).
Proof.
  induction n as [|n IH]; intros d p; [by intros ?%elem_of_nil|].
  destruct (fs !! d) as [[data rd wr|[e|]|q|e]|] eqn:Hd;
    try (simpl; rewrite Hd; by intros ?%elem_of_nil).
  rewrite (walk_listable _ _ _ _ Hd).
  intros (g & [->|Hg]%elem_of_cons & Hp)%chain_yields.
  - simpl in Hp. apply list_elem_of_filter in Hp as [Hmatch Hp].
    apply elem_of_scandir in Hp as [[name ->] Hsome].
    exists [name]. split; [done|]. split; [|done].
    rewrite selects_cons, <- (name_matches_entry d), Hmatch, andb_true_r.
    by apply is_listable_spec.
  - apply list_elem_of_fmap in Hg as (c & -> & Hc).
    apply elem_of_scandir in Hc as [[name ->] _].
    destruct (IH _ _ Hp) as (rel & -> & Hsel & Hsome).
    exists (name :: rel). rewrite <- app_assoc in Hsome |- *. split; [done|].
    split; [|done]. rewrite selects_cons.
    apply andb_true_iff. split; [by apply is_listable_spec|].
    by destruct rel.
Qed.

Lemma walk_NoDup (fs : gmap path node) (pat : string) (n : nat) :
  ∀ d, NoDup (yields (walk n fs pat d)).
Proof.
  induction n as [|n IH]; intros d; [constructor|].
  destruct (fs !! d) as [[data rd wr|[e|]|q|e]|] eqn:Hd;
    try (simpl; rewrite Hd; constructor).
  rewrite (walk_listable _ _ _ _ Hd). cbn [chain ends yields].
  apply NoDup_app. split; [apply NoDup_filter, NoDup_scandir|]. split.
  - intros p [_ Hp]%list_elem_of_filter
      (g & (c & -> & Hc)%list_elem_of_fmap & Hp')%chain_yields.
    apply elem_of_scandir in Hp as [[name ->] _].
    apply elem_of_scandir in Hc as [[name' ->] _].
    apply walk_yields in Hp' as (rel & Heq & Hsel & _).
    destruct rel as [|name'' rel]; [done|].
    apply (f_equal length) in Heq. rewrite !length_app in Heq.
    simpl in Heq. lia.
  - apply chain_NoDup; [apply NoDup_scandir|by intros; apply IH|].
    intros x y p [[a ->] _]%elem_of_scandir [[b ->] _]%elem_of_scandir
      (r1 & -> & _)%walk_yields (r2 & Heq & _)%walk_yields.
    apply app_inj_1 in Heq as [Heq _]; [done|].
    by rewrite !length_app.
Qed.

(** A walk that an exception ends has reached a directory on which
    listing raises it, and it is not a [PermissionError]. *)
Lemma walk_ends (fs : gmap path node) (pat : string) (n : nat) :
  ∀ (d : path) (e : exn),
    ends (walk n fs pat d) = Some e →
    is_permission e = false
    ∧ ∃ rel, reaches fs d rel = true ∧ fs !! (d ++ rel) = Some (Dir (Some e)).
Proof.
  induction n as [|n IH]; intros d e; [done|].
  destruct (fs !! d) as [[data rd wr|[e'|]|q|e']|] eqn:Hd;
    try (simpl; rewrite Hd; done).
  - simpl. rewrite Hd. simpl.
    destruct (is_permission e') eqn:Hperm; [done|]. intros [= <-].
    split; [done|]. exists []. by rewrite app_nil_r.
  - rewrite (walk_listable _ _ _ _ Hd).
    intros (g & [->|Hg]%elem_of_cons & He)%chain_ends_Some; [done|].
    apply list_elem_of_fmap in Hg as (c & -> & Hc).
    apply elem_of_scandir in Hc as [[name ->] _].
    destruct (IH _ _ He) as (Hperm & rel & Hreach & Hfail).
    split; [done|]. exists (name :: rel). rewrite <- app_assoc in Hfail.
    split; [|done]. simpl. rewrite Hreach, andb_true_r.
    by apply is_listable_spec.
Qed.

(** A walk that nothing ends yields every selected entry. *)
Lemma walk_complete (fs : gmap path node) (pat : string) (rel : path) :
  ∀ (n : nat) (d : path),
    ends (walk n fs pat d) = None →
    selects fs pat d rel = true →
    is_Some (fs !! (d ++ rel)) →
    length rel ≤ n →
    d ++ rel ∈ yields (walk n fs pat d).
Proof.
  induction rel as [|name rel IH]; intros n d Hends Hsel Hsome Hlen; [done|].
  destruct n as [|n]; [simpl in Hlen; lia|].
  rewrite selects_cons in Hsel. apply andb_true_iff in Hsel as [Hd Hsel].
  apply is_listable_spec in Hd. rewrite (walk_listable _ _ _ _ Hd) in Hends |- *.
  apply chain_ends_None in Hends as [Hnone Hall].
  destruct rel as [|name' rel].
  - eapply Hall; [by left|]. simpl. apply list_elem_of_filter.
    split; [by rewrite name_matches_entry|].
    apply elem_of_scandir. split; [by exists name|done].
  - assert (d ++ [name] ∈ scandir fs d) as Hc.
    { apply elem_of_scandir. split; [by exists name|].
      rewrite selects_cons in Hsel. apply andb_true_iff in Hsel as [Hc _].
      apply is_listable_spec in Hc. by rewrite Hc. }
    eapply Hall.
    + right. apply list_elem_of_fmap. by exists (d ++ [name]).
    + replace (d ++ name :: name' :: rel) with ((d ++ [name]) ++ name' :: rel)
        by by rewrite <- app_assoc.
      apply IH; [|done| |simpl in *; lia].
      * apply Hnone. right. apply list_elem_of_fmap. by exists (d ++ [name]).
      * by rewrite <- app_assoc.
Qed.

(** A walk that reaches a directory on which listing raises something
    other than a [PermissionError] does not run to its end. *)
Lemma walk_fails (fs : gmap path node) (pat : string) (rel : path) :
  ∀ (n : nat) (d : path) (e : exn),
    reaches fs d rel = true →
    fs !! (d ++ rel) = Some (Dir (Some e)) →
    is_permission e = false →
    length rel < n →
    ends (walk n fs pat d) ≠ None.
Proof.
  induction rel as [|name rel IH]; intros n d e Hreach Hfail Hperm Hlen;
    (destruct n as [|n]; [simpl in Hlen; lia|]).
  - rewrite app_nil_r in Hfail. simpl. by rewrite Hfail, Hperm.
  - simpl in Hreach. apply andb_true_iff in Hreach as [Hd Hreach].
    apply is_listable_spec in Hd. rewrite (walk_listable _ _ _ _ Hd).
    intros [Hnone _]%chain_ends_None.
    assert (d ++ [name] ∈ scandir fs d) as Hc.
    { apply elem_of_scandir. split; [by exists name|].
      destruct rel as [|name' rel].
      - by rewrite Hfail.
      - simpl in Hreach. apply andb_true_iff in Hreach as [Hc _].
        apply is_listable_spec in Hc. by rewrite Hc. }
    apply (IH n (d ++ [name]) e); [done|by rewrite <- app_assoc|done| |].
    + simpl in Hlen. lia.
    + apply Hnone. right. apply list_elem_of_fmap. by exists (d ++ [name]).
Qed.

(** No path of the tree is as long as [depth]. *)
Lemma depth_bound (fs : gmap path node) (p : path) :
  is_Some (fs !! p) → length p < depth fs.
Proof.
  intros [n Hn]. unfold depth. apply Nat.lt_succ_r, max_list_elem_of_le.
  apply list_elem_of_fmap. exists p. split; [done|].
  apply list_elem_of_fmap. exists (p, n). split; [done|].
  by apply elem_of_map_to_list.
Qed.

End Walk.

(* ===================================================================== *)
(** * The run *)
(* ===================================================================== *)

Section Run.

Lemma event_of_mono (ps qs : list path) (ev : event) :
  ps ⊆ qs → event_of ps ev → event_of qs ev.
Proof. intros Hsub. destruct ev as [q m|[]]; simpl; auto. Qed.


Lemma sum_Z_cons (n : Z) (l : list Z) : sum_Z (n :: l) = (n + sum_Z l)%Z.
Proof. done. Qed.

Lemma updated_cons (p : path) (n : Z) (cs : list (path * Z)) :
  updated ((p, n) :: cs)
  = if (0 <? n)%Z then (p, n) :: updated cs else updated cs.
Proof.
  unfold updated. rewrite filter_cons. simpl.
  destruct (Z.ltb_spec 0 n); case_decide; (done || lia).
Qed.

Lemma lines_of_app (evs1 evs2 : list event) :
  lines_of (evs1 ++ evs2) = lines_of evs1 ++ lines_of evs2.
Proof. apply omap_app. Qed.

Lemma read_of_app (evs1 evs2 : list event) :
  read_of (evs1 ++ evs2) = read_of evs1 ++ read_of evs2.
Proof. apply omap_app. Qed.

Lemma written_of_app (evs1 evs2 : list event) :
  written_of (evs1 ++ evs2) = written_of evs1 ++ written_of evs2.
Proof. apply omap_app. Qed.

Lemma lines_of_print (ls : list line) : lines_of (Print <$> ls) = ls.
Proof. induction ls as [|l ls IH]; [done|]. cbn. f_equal. exact IH. Qed.

Lemma read_of_print (ls : list line) : read_of (Print <$> ls) = [].
Proof. by induction ls as [|l ls IH]. Qed.

Lemma elem_of_lines_of (l : line) (evs : list event) :
  l ∈ lines_of evs ↔ Print l ∈ evs.
Proof.
  unfold lines_of. rewrite list_elem_of_omap. split.
  - intros ([q m|l'] & Hin & Heq); by simplify_eq.
  - intros Hin. by exists (Print l).
Qed.


(** The body of the loop, with the call resolved. *)
Lemma loop_body_unfold (p : path) (totals : Z * Z) (σ : state) :
  loop_body p totals σ =
  match update_year_in_file p σ with
  | (Raise e, σ1) => (Raise e, σ1)
  | (Return n, σ1) =>
      if (0 <? n)%Z then
        match (relative_to p base_dir σ1).1 with
        | Raise e => (Raise e, σ1)
        | Return rel =>
            match print_raises σ1 (LOk rel n) with
            | None =>
                (Return (totals.1 + 1, totals.2 + n)%Z, log (Print (LOk rel n)) σ1)
            | Some e => (Raise e, σ1)
            end
        end
      else (Return totals, σ1)
  end.
Proof.
  unfold loop_body, mbind, M_bind, relative_to. destruct totals as [tf tr].
  destruct (update_year_in_file p σ) as [[n|e] σ1]; [|done].
  destruct (0 <? n)%Z; [|done].
  destruct (strip_base base_dir p) as [rel|]; [|done]. simpl.
  destruct (print_raises σ1 (LOk rel n)) as [e|] eqn:Hprint.
  - by rewrite (print_raises_Some _ _ _ Hprint).
  - by rewrite (print_raises_None _ _ Hprint).
Qed.

Lemma relative_to_Return (p rel : path) (σ : state) :
  (relative_to p base_dir σ).1 = Return rel → strip_base base_dir p = Some rel.
Proof.
  unfold relative_to. destruct (strip_base base_dir p); [|done].
  by intros [= ->].
Qed.

(** Where the body of the loop leaves the state: where the call left
    it, with the line for the file appended if it was printed. *)
Lemma loop_body_state (p : path) (totals : Z * Z) (σ : state) :
  ∃ evs,
    (loop_body p totals σ).2
    = State (files (update_year_in_file p σ).2)
        (trace (update_year_in_file p σ).2 ++ evs)
        (encodes (update_year_in_file p σ).2)
    ∧ (evs = [] ∨ ∃ rel n, evs = [Print (LOk rel n)]).
Proof.
  rewrite loop_body_unfold.
  destruct (update_year_in_file p σ) as [[n|e] σ1]; simpl;
    [|exists []; rewrite app_nil_r; split; [by destruct σ1|by left]].
  destruct (0 <? n)%Z;
    [|exists []; rewrite app_nil_r; split; [by destruct σ1|by left]].
  destruct (relative_to p base_dir σ1).1 as [rel|e];
    [|exists []; rewrite app_nil_r; split; [by destruct σ1|by left]].
  destruct (print_raises σ1 (LOk rel n));
    [exists []; rewrite app_nil_r; split; [by destruct σ1|by left]|].
  exists [Print (LOk rel n)]. split; [done|]. right. by eexists _, _.
Qed.

(** The state the body of the loop leaves does not depend on the
    counters. *)
Lemma loop_body_counters (p : path) (totals totals' : Z * Z) (σ : state) :
  (loop_body p totals σ).2 = (loop_body p totals' σ).2.
Proof.
  rewrite !loop_body_unfold.
  destruct (update_year_in_file p σ) as [[n|e] σ1]; [|done].
  destruct (0 <? n)%Z; [|done].
  destruct (relative_to p base_dir σ1).1 as [rel|e]; [|done].
  by destruct (print_raises σ1 (LOk rel n)).
Qed.

(** What the body of the loop does, whether it returns or raises. *)
Lemma loop_body_effect (p : path) (totals : Z * Z) (σ : state) :
  ∃ evs,
    trace (loop_body p totals σ).2 = trace σ ++ evs
    ∧ Forall (event_of [p]) evs
    ∧ encodes (loop_body p totals σ).2 = encodes σ
    ∧ (∀ q, target (files σ) p ≠ Some q →
            files (loop_body p totals σ).2 !! q = files σ !! q)
    ∧ (∀ q, text_change (files σ !! q) (files (loop_body p totals σ).2 !! q)).
Proof.
  destruct (update_year_in_file_effect p σ)
    as (evs1 & Htr & Hev & _ & _ & Henc & Hframe & Hchange).
  destruct (loop_body_state p totals σ) as (evs2 & -> & Hevs2).
  exists (evs1 ++ evs2). cbn [trace files encodes].
  rewrite Htr, <- app_assoc. split; [done|]. split; [|done].
  apply Forall_app. split; [done|].
  destruct Hevs2 as [->|(rel & n & ->)]; by repeat constructor.
Qed.

(** What the body of the loop does when it returns. *)
Lemma loop_body_returns (p : path) (totals totals' : Z * Z) (σ σ' : state) :
  loop_body p totals σ = (Return totals', σ') →
  totals' = (if (0 <? returned σ p)%Z
             then (totals.1 + 1, totals.2 + returned σ p)%Z
             else totals)
  ∧ σ' = after_iteration σ p
  ∧ ∃ evs,
      trace σ' = trace σ ++ evs
      ∧ ok_lines (lines_of evs)
        = (if (0 <? returned σ p)%Z then [(rel_of p, returned σ p)] else [])
      ∧ read_of evs = [p].
Proof.
  intros Hbody.
  assert (σ' = after_iteration σ p) as Hafter.
  { unfold after_iteration.
    by rewrite (loop_body_counters p (0%Z, 0%Z) totals), Hbody. }
  destruct (update_year_in_file_effect p σ)
    as (evs1 & Htr & _ & Hok & Hrd & _).
  rewrite loop_body_unfold in Hbody. unfold returned.
  destruct (update_year_in_file p σ) as [[n|e] σ1]; [|done].
  cbn [fst snd] in *.
  destruct (0 <? n)%Z.
  - destruct (relative_to p base_dir σ1).1 as [rel|e] eqn:Hrel; [|done].
    apply relative_to_Return in Hrel.
    destruct (print_raises σ1 (LOk rel n)); [done|].
    injection Hbody as <- <-. split; [done|]. split; [done|].
    exists (evs1 ++ [Print (LOk rel n)]). cbn [trace log].
    rewrite Htr, <- app_assoc. split; [done|].
    rewrite lines_of_app, read_of_app, Hrd.
    unfold ok_lines in *. rewrite omap_app, Hok.
    unfold rel_of. by rewrite Hrel.
  - injection Hbody as <- <-. split; [done|]. split; [done|].
    by exists evs1.
Qed.

Lemma for_each_cons (p : path) (rest : list path) (totals : Z * Z) (σ : state) :
  for_each (p :: rest) loop_body totals σ
  = match loop_body p totals σ with
    | (Return totals', σ') => for_each rest loop_body totals' σ'
    | (Raise e, σ') => (Raise e, σ')
    end.
Proof. done. Qed.

(** What the loop does, whether it runs to its end or not: it opens
    enumerated paths only and changes nothing but the text of files
    that enumerated paths name. *)
Lemma for_each_effect (mdx_files : list path) :
  ∀ (σ : state) (totals : Z * Z),
    ∃ evs,
      trace (for_each mdx_files loop_body totals σ).2 = trace σ ++ evs
      ∧ Forall (event_of mdx_files) evs
      ∧ encodes (for_each mdx_files loop_body totals σ).2 = encodes σ
      ∧ (∀ q, (∀ p, p ∈ mdx_files → target (files σ) p ≠ Some q) →
              files (for_each mdx_files loop_body totals σ).2 !! q
              = files σ !! q)
      ∧ (∀ q, text_change (files σ !! q)
                (files (for_each mdx_files loop_body totals σ).2 !! q)).
Proof.
  induction mdx_files as [|p rest IH]; intros σ totals.
  - exists []. simpl. rewrite app_nil_r. split; [done|]. split; [done|].
    split; [done|]. split; [done|]. intros q. by left.
  - destruct (loop_body_effect p totals σ)
      as (evs1 & Htr1 & Hev1 & Henc1 & Hframe1 & Hchange1).
    assert (Forall (event_of (p :: rest)) evs1) as Hev1'.
    { eapply Forall_impl; [exact Hev1|]. intros ev.
      apply event_of_mono. intros q ->%list_elem_of_singleton. by left. }
    rewrite for_each_cons.
    destruct (loop_body p totals σ) as [[totals'|e] σ1]; cbn [fst snd] in *.
    + destruct (IH σ1 totals') as (evs & Htr & Hev & Henc & Hframe & Hchange).
      exists (evs1 ++ evs). rewrite Htr, Htr1, app_assoc. split; [done|].
      split.
      { apply Forall_app. split; [done|].
        eapply Forall_impl; [exact Hev|]. intros ev.
        apply event_of_mono. intros q Hq. by right. }
      split; [by rewrite Henc|]. split.
      * intros q Hq. rewrite Hframe, Hframe1; [done|apply Hq; by left|].
        intros p' Hp'. rewrite (target_text_change (files σ)); [|done].
        apply Hq. by right.
      * intros q. eapply text_change_trans; [apply Hchange1|apply Hchange].
    + exists evs1. split; [done|]. split; [done|]. split; [done|].
      split; [|done]. intros q Hq. apply Hframe1, Hq. by left.
Qed.

(** What the loop does when it runs to its end: the counters grow by
    the number and the sum of the counts that were positive; the lines
    it prints for updated files are those of the calls that returned a
    positive count, in order; and each path is opened for reading once,
    in order. *)
Lemma for_each_returns (mdx_files : list path) :
  ∀ (σ σ' : state) (totals totals' : Z * Z),
    for_each mdx_files loop_body totals σ = (Return totals', σ') →
    totals'
    = (totals.1 + Z.of_nat (length (updated (calls mdx_files σ))),
       totals.2 + sum_Z (updated (calls mdx_files σ)).*2)%Z
    ∧ ∃ evs,
        trace σ' = trace σ ++ evs
        ∧ ok_lines (lines_of evs)
          = (λ c, (rel_of c.1, c.2)) <$> updated (calls mdx_files σ)
        ∧ read_of evs = mdx_files.
Proof.
  induction mdx_files as [|p rest IH]; intros σ σ' totals totals' Hloop.
  - simpl in Hloop. injection Hloop as <- <-. simpl.
    rewrite !Z.add_0_r. split; [by destruct totals|].
    exists []. by rewrite app_nil_r.
  - rewrite for_each_cons in Hloop.
    destruct (loop_body p totals σ) as [[totals1|e] σ1] eqn:Hbody; [|done].
    apply loop_body_returns in Hbody
      as (-> & -> & evs1 & Htr1 & Hok1 & Hrd1).
    apply IH in Hloop as (-> & evs & Htr & Hok & Hrd).
    simpl calls. rewrite updated_cons. split.
    { destruct (0 <? returned σ p)%Z;
        rewrite ?fmap_cons, ?sum_Z_cons, ?length_cons;
        cbn [fst snd]; f_equal; lia. }
    exists (evs1 ++ evs). rewrite Htr, Htr1, app_assoc. split; [done|].
    rewrite lines_of_app, read_of_app, Hrd1, Hrd. split; [|done].
    unfold ok_lines in *. rewrite omap_app, Hok1, Hok.
    by destruct (0 <? returned σ p)%Z.
Qed.

Lemma print_summary_effect (totals : Z * Z) (σ : state) :
  print_summary totals σ
  = (Return (), State (files σ)
                  (trace σ ++ (Print <$> summary totals.1 totals.2))
                  (encodes σ)).
Proof.
  unfold print_summary, print, accepts, log, mbind, M_bind. simpl.
  by rewrite <- !app_assoc.
Qed.

Lemma selects_name (fs : gmap path node) (pat : string) (rel d : path) :
  selects fs pat d rel = true →
  ∃ name, last rel = Some name ∧ fnmatch name pat = true.
Proof.
  revert d. induction rel as [|name rel IH]; intros d H; [done|].
  simpl in H. apply andb_true_iff in H as [_ H].
  destruct rel as [|name' rel]; [by exists name|].
  rewrite last_cons_cons. by apply (IH (d ++ [name])).
Qed.

Lemma selects_listable (fs : gmap path node) (pat : string) (rel d : path) :
  selects fs pat d rel = true → is_listable fs d = true.
Proof. destruct rel; [done|]. simpl. by intros [? _]%andb_true_iff. Qed.

Lemma yielded_inv (fs : gmap path node) (pat : string) (base p : path) :
  yielded fs pat base p = true →
  is_Some (strip_base base p) ∧ name_matches p pat = true
  ∧ is_listable fs base = true.
Proof.
  unfold yielded, name_matches.
  destruct (strip_base base p) as [rel|] eqn:Hrel; [|done]. intros Hsel.
  split; [done|]. split; [|by eapply selects_listable].
  destruct (selects_name _ _ _ _ Hsel) as (name & Hlast & Hmatch).
  apply strip_base_app in Hrel as ->.
  by rewrite last_app, Hlast.
Qed.

(** What [rglob] does: it raises when the root cannot be examined, and
    otherwise yields, without repetition, entries below the root whose
    name matches; none at all unless the root is a directory that can
    be listed. *)
Lemma rglob_effect (base : path) (pat : string) (σ : state) :
  (∃ e, files σ !! base = Some (Unreachable e)
        ∧ rglob base pat σ = (Raise e, σ))
  ∨ (∃ found, rglob base pat σ = (Return found, σ)
        ∧ found = walk (depth (files σ)) (files σ) pat base
        ∧ NoDup (yields found)
        ∧ (is_listable (files σ) base = false → yields found = [])
        ∧ ∀ p, p ∈ yields found →
            yielded (files σ) pat base p = true ∧ is_Some (files σ !! p)).
Proof.
  set (found := walk (depth (files σ)) (files σ) pat base).
  assert (∀ p, p ∈ yields found →
            yielded (files σ) pat base p = true ∧ is_Some (files σ !! p))
    as Hfound.
  { intros p (rel & -> & Hsel & Hsome)%walk_yields. split; [|done].
    unfold yielded. by rewrite strip_base_app_2. }
  assert (is_listable (files σ) base = false → yields found = []) as Hnone.
  { intros Hno. apply elem_of_nil_inv.
    intros p [(_ & _ & Hl)%yielded_inv _]%Hfound. congruence. }
  unfold rglob. fold found.
  destruct (files σ !! base) as [[data rd wr|ls|q|e]|] eqn:Hbase;
    try (right; exists found; split; [done|]; split; [done|];
         split; [apply walk_NoDup|]; split; [done|]; exact Hfound).
  left. by exists e.
Qed.

Lemma main_unfold (σ : state) :
  main σ =
  match rglob base_dir "*.mdx" σ with
  | (Raise e, σ0) => (Raise e, σ0)
  | (Return found, σ0) =>
      match for_each (yields found) loop_body (0%Z, 0%Z) σ0 with
      | (Raise e, σ1) => (Raise e, σ1)
      | (Return totals, σ1) =>
          match ends found with
          | Some e => (Raise e, σ1)
          | None => print_summary totals σ1
          end
      end
  end.
Proof.
  unfold main, for_in, mbind, M_bind.
  destruct (rglob base_dir "*.mdx" σ) as [[found|e] σ0]; [|done].
  destruct (for_each (yields found) loop_body (0%Z, 0%Z) σ0)
    as [[totals|e] σ1]; [|done].
  by destruct (ends found).
Qed.


(** What a run that returns has done. *)
Lemma main_returns (σ σ' : state) :
  main σ = (Return (), σ') →
  ∃ (found : generated path) (totals : Z * Z) (σ1 : state),
    rglob base_dir "*.mdx" σ = (Return found, σ)
    ∧ ends found = None
    ∧ for_each (yields found) loop_body (0%Z, 0%Z) σ = (Return totals, σ1)
    ∧ σ' = State (files σ1)
             (trace σ1 ++ (Print <$> summary totals.1 totals.2))
             (encodes σ1).
Proof.
  rewrite main_unfold.
  destruct (rglob_effect base_dir "*.mdx" σ)
    as [(e & Hroot & ->)|(found & -> & _)]; [done|].
  destruct (for_each (yields found) loop_body (0%Z, 0%Z) σ)
    as [[totals|e] σ1] eqn:Hloop; [|done].
  destruct (ends found) as [e|] eqn:Hends; [done|].
  rewrite print_summary_effect. intros [= <-].
  by exists found, totals, σ1.
Qed.



End Run.

(* ===================================================================== *)
(** * A second run *)
(* ===================================================================== *)

Section SecondRun.

Lemma text_change_clean (fs fs' : gmap path node) (p : path) :
  text_change (fs !! p) (fs' !! p) → clean_file fs p → clean_file fs' p.
Proof.
  unfold clean_file.
  intros [Heq|(s & t & rd & wr & Hp & Hp')] [s' Hs'].
  - exists s'. by rewrite Heq.
  - rewrite Hp in Hs'. injection Hs' as -> -> ->. by exists t.
Qed.

(** A call on a path that names a file in which the year does not occur
    reads the file and does no more. *)
Lemma update_on_settled (p q : path) (σ : state) (s : text) wr :
  target (files σ) q = Some p →
  files σ !! p = Some (File s None wr) →
  occurrences s = [] →
  update_year_in_file q σ = (Return 0%Z, log (Open q R) σ).
Proof.
  intros Ht Hp Hnone.
  rewrite update_year_in_file_unfold. unfold read_text. rewrite Ht, Hp.
  apply count_zero_iff in Hnone.
  by rewrite count_universal_newlines, Hnone.
Qed.

Lemma update_settles (p : path) (σ : state) :
  clean_file (files σ) p →
  settled_file (files (update_year_in_file p σ).2) p.
Proof.
  intros [s Hfile].
  pose proof (target_file _ _ _ _ _ Hfile) as Ht.
  destruct (update_year_in_file_cases p σ)
    as [(e & Hraise & _)
       |(q & data & wr & Ht' & Hq & _ & [[Hz ->]|[_ Hw]])].
  - by rewrite (read_text_ok _ _ _ _ Hfile) in Hraise.
  - exists s. split; [done|]. rewrite Ht in Ht'. injection Ht' as <-.
    rewrite Hfile in Hq. injection Hq as <- <-.
    apply count_zero_iff. by rewrite <- count_universal_newlines.
  - rewrite Ht in Ht'. injection Ht' as <-.
    rewrite Hfile in Hq. injection Hq as <- <-. rewrite Hw.
    eexists. cbn. rewrite lookup_insert_eq. split; [done|].
    apply occurrences_replace.
Qed.

Lemma update_keeps_settled (p q : path) (σ : state) :
  settled_file (files σ) p →
  settled_file (files (update_year_in_file q σ).2) p.
Proof.
  intros (s & Hp & Hnone).
  destruct (decide (target (files σ) q = Some p)) as [Ht|Ht].
  - rewrite (update_on_settled _ _ _ _ _ Ht Hp Hnone). by exists s.
  - destruct (update_year_in_file_effect q σ)
      as (_ & _ & _ & _ & _ & _ & Hframe & _).
    exists s. by rewrite Hframe.
Qed.

Lemma files_loop_body (p : path) (totals : Z * Z) (σ : state) :
  files (loop_body p totals σ).2 = files (update_year_in_file p σ).2.
Proof. by destruct (loop_body_state p totals σ) as (evs & -> & _). Qed.

Lemma for_each_keeps_settled (mdx_files : list path) (p : path) :
  ∀ (σ : state) (totals : Z * Z),
    settled_file (files σ) p →
    settled_file (files (for_each mdx_files loop_body totals σ).2) p.
Proof.
  induction mdx_files as [|q rest IH]; intros σ totals Hp; [done|].
  rewrite for_each_cons.
  pose proof (update_keeps_settled p q σ Hp) as Hq.
  rewrite <- (files_loop_body q totals) in Hq.
  destruct (loop_body q totals σ) as [[totals'|e] σ1]; [|done].
  by apply IH.
Qed.

(** After a loop that ran to its end, every enumerated file that was
    clean is settled. *)
Lemma for_each_settles (mdx_files : list path) :
  ∀ (σ σ' : state) (totals totals' : Z * Z),
    for_each mdx_files loop_body totals σ = (Return totals', σ') →
    (∀ p, p ∈ mdx_files → clean_file (files σ) p) →
    ∀ p, p ∈ mdx_files → settled_file (files σ') p.
Proof.
  induction mdx_files as [|q rest IH]; intros σ σ' totals totals' Hloop Hclean;
    [by intros p ?%elem_of_nil|].
  rewrite for_each_cons in Hloop.
  destruct (loop_body_effect q totals σ) as (_ & _ & _ & _ & _ & Hchange).
  pose proof (files_loop_body q totals σ) as Hfiles.
  destruct (loop_body q totals σ) as [[totals1|e] σ1]; [|done].
  cbn [snd] in *.
  intros p [->|Hp]%elem_of_cons.
  - replace σ' with (for_each rest loop_body totals1 σ1).2 by by rewrite Hloop.
    apply for_each_keeps_settled. rewrite Hfiles.
    apply update_settles, Hclean. by left.
  - apply (IH σ1 σ' totals1 totals' Hloop); [|done].
    intros p' Hp'. eapply text_change_clean; [apply Hchange|].
    apply Hclean. by right.
Qed.

(** On settled files the loop replaces nothing: the totals, the tree and
    the printed lines stay as they are. *)
Lemma for_each_idle (mdx_files : list path) :
  ∀ (σ : state) (totals : Z * Z),
    (∀ p, p ∈ mdx_files → settled_file (files σ) p) →
    ∃ evs,
      for_each mdx_files loop_body totals σ
      = (Return totals, State (files σ) (trace σ ++ evs) (encodes σ))
      ∧ lines_of evs = [].
Proof.
  induction mdx_files as [|p rest IH]; intros σ totals Hsettled.
  - exists []. rewrite app_nil_r. by destruct σ.
  - assert (loop_body p totals σ = (Return totals, log (Open p R) σ)) as Hbody.
    { rewrite loop_body_unfold.
      destruct (Hsettled p) as (s & Hp & Hnone); [by left|].
      by rewrite (update_on_settled _ _ _ _ _ (target_file _ _ _ _ _ Hp) Hp Hnone). }
    destruct (IH (log (Open p R) σ) totals) as (evs & Hloop & Hlines).
    { intros q Hq. apply Hsettled. by right. }
    exists (Open p R :: evs). split; [|done].
    rewrite for_each_cons, Hbody, Hloop. cbn. by rewrite <- app_assoc.
Qed.

Lemma is_listable_shape (fs fs' : gmap path node) (d : path) :
  (∀ q, text_change (fs !! q) (fs' !! q)) →
  is_listable fs' d = is_listable fs d.
Proof.
  intros Hsame. unfold is_listable.
  by destruct (Hsame d) as [->|(s & t & rd & wr & -> & ->)].
Qed.

Lemma selects_shape (fs fs' : gmap path node) (pat : string) (rel d : path) :
  (∀ q, text_change (fs !! q) (fs' !! q)) →
  selects fs' pat d rel = selects fs pat d rel.
Proof.
  intros Hsame. revert d. induction rel as [|name rel IH]; intros d; [done|].
  rewrite !selects_cons, (is_listable_shape fs fs') by done.
  destruct rel; [done|]. by rewrite IH.
Qed.

Lemma reaches_shape (fs fs' : gmap path node) (rel d : path) :
  (∀ q, text_change (fs !! q) (fs' !! q)) →
  reaches fs' d rel = reaches fs d rel.
Proof.
  intros Hsame. revert d. induction rel as [|name rel IH]; intros d; [done|].
  simpl. by rewrite (is_listable_shape fs fs'), IH.
Qed.

Lemma rglob_returns (base : path) (pat : string) (σ : state) :
  (∀ e, files σ !! base ≠ Some (Unreachable e)) →
  rglob base pat σ
  = (Return (walk (depth (files σ)) (files σ) pat base), σ).
Proof.
  intros Hroot. unfold rglob.
  destruct (files σ !! base) as [[data rd wr|ls|q|e]|] eqn:Hbase; try done.
  by destruct (Hroot e).
Qed.

(** X13. Running the script a second time, after a run in which every
    enumerated entry was a file read and written without error, replaces
    nothing: no file changes, no per-file line is printed, and the
    summary reports 0 files and 0 replacements. *)
Lemma second_run_replaces_nothing
    (σ σ1 : state) (mdx_files : generated path) :
  rglob base_dir "*.mdx" σ = (Return mdx_files, σ) →
  (∀ p, p ∈ yields mdx_files → clean_file (files σ) p) →
  main σ = (Return (), σ1) →
  ∃ evs,
    main σ1
    = (Return (),
       State (files σ1) (trace σ1 ++ evs ++ (Print <$> summary 0 0))
         (encodes σ1))
    ∧ lines_of evs = [].
Proof.
  intros Hglob Hclean Hmain.
  destruct (main_returns _ _ Hmain)
    as (found & totals & σ' & Hglob' & Hends & Hloop & Hσ1).
  rewrite Hglob in Hglob'. injection Hglob' as <-.
  destruct (rglob_effect base_dir "*.mdx" σ)
    as [(e & _ & Hraise)|(found & Hglob' & Hwalk & _)]; [congruence|].
  rewrite Hglob in Hglob'. injection Hglob' as <-.
  assert (files σ1 = files σ') as Hfiles by by subst σ1.
  assert (∀ q, text_change (files σ !! q) (files σ1 !! q)) as Hshape.
  { intros q. rewrite Hfiles.
    destruct (for_each_effect (yields mdx_files) σ (0%Z, 0%Z))
      as (_ & _ & _ & _ & _ & Hchange).
    rewrite Hloop in Hchange. apply Hchange. }
  pose proof (for_each_settles _ _ _ _ _ Hloop Hclean) as Hsettled.
  assert (rglob base_dir "*.mdx" σ1
          = (Return (walk (depth (files σ1)) (files σ1) "*.mdx" base_dir), σ1))
    as Hglob1.
  { apply rglob_returns. intros e Hroot.
    destruct (Hshape base_dir) as [Heq|(s & t & rd & wr & _ & Heq)];
      [|congruence].
    rewrite Hroot in Heq. unfold rglob in Hglob. by rewrite <- Heq in Hglob. }
  set (found1 := walk (depth (files σ1)) (files σ1) "*.mdx" base_dir) in *.
  assert (ends found1 = None) as Hends1.
  { destruct (ends found1) as [e|] eqn:He; [|done].
    apply walk_ends in He as (Hperm & rel & Hreach & Hfail).
    rewrite (reaches_shape (files σ)) in Hreach by done.
    apply (text_change_dir _ _ _ (Hshape (base_dir ++ rel))) in Hfail.
    destruct (walk_fails (files σ) "*.mdx" rel (depth (files σ)) base_dir e)
      as []; try done; [|congruence].
    pose proof (depth_bound (files σ) (base_dir ++ rel)) as Hlen.
    rewrite Hfail, length_app in Hlen.
    specialize (Hlen (mk_is_Some _ _ eq_refl)). lia. }
  assert (∀ p, p ∈ yields found1 → settled_file (files σ1) p) as Hsettled1.
  { intros p (rel & -> & Hsel & Hsome)%walk_yields.
    rewrite Hfiles. apply Hsettled. rewrite Hwalk.
    rewrite (selects_shape (files σ)) in Hsel by done.
    apply (text_change_is_Some _ _ (Hshape (base_dir ++ rel))) in Hsome.
    apply walk_complete; [congruence|done|done|].
    pose proof (depth_bound _ _ Hsome) as Hlen.
    rewrite length_app in Hlen. lia. }
  destruct (for_each_idle (yields found1) σ1 (0%Z, 0%Z) Hsettled1)
    as (evs & Hidle & Hlines).
  exists evs. split; [|done].
  rewrite main_unfold, Hglob1, Hidle, Hends1, print_summary_effect.
  cbn. by rewrite <- app_assoc.
Qed.

Lemma second_run_replaces_nothing_witness :
  ∃ evs,
    main (main example).2
    = (Return (),
       State (files (main example).2)
         (trace (main example).2 ++ evs ++ (Print <$> summary 0 0))
         (encodes (main example).2))
    ∧ lines_of evs = [].
Proof.
  apply (second_run_replaces_nothing example (main example).2
           (Generated [b_mdx; a_mdx] None));
    [by vm_compute| |by vm_compute].
  intros p [->|[->|[]%elem_of_nil]%elem_of_cons]%elem_of_cons;
    eexists; by vm_compute.
Defined.

End SecondRun.

(* ===================================================================== *)
(** * Errors on one file *)
(* ===================================================================== *)

Section Errors.






End Errors.

(* ===================================================================== *)
(** * The properties of the specification *)
(* ===================================================================== *)




(** C2. Once [update_year_in_file] has run on a file that reads and writes
    without error, the year stands nowhere in the file, so a second run
    returns 0 and leaves every file as it is. The two years differ and
    2026 does not contain 2025. *)
Theorem idempotence_after_convergence
    (σ : state) (file_path : path) (content : text) :
  files σ !! file_path = Some (File content None None) →
  ∃ (after : text) (σ1 σ2 : state),
    (update_year_in_file file_path σ).2 = σ1
    ∧ files σ1 !! file_path = Some (File after None None)
    ∧ occurrences after = []
    ∧ update_year_in_file file_path σ1 = (Return 0%Z, σ2)
    ∧ files σ2 = files σ1
    ∧ opened_w σ2 = opened_w σ1
    ∧ year_old ≠ year_new
    ∧ occurrences year_new = [].
Proof.
  intros Hfile.
  destruct (update_settles file_path σ) as (after & Hafter & Hnone);
    [by exists content|].
  exists after, (update_year_in_file file_path σ).2. eexists.
  split; [done|]. split; [done|]. split; [done|].
  split; [by apply (untouched_if_absent_aux _ _ after None)|].
  split; [done|]. split; [apply opened_w_log_read|]. by split.
Qed.

Lemma idempotence_after_convergence_witness :
  ∃ (after : text) (σ1 σ2 : state),
    (update_year_in_file a_mdx example).2 = σ1
    ∧ files σ1 !! a_mdx = Some (File after None None)
    ∧ occurrences after = []
    ∧ update_year_in_file a_mdx σ1 = (Return 0%Z, σ2)
    ∧ files σ2 = files σ1
    ∧ opened_w σ2 = opened_w σ1
    ∧ year_old ≠ year_new
    ∧ occurrences year_new = [].
Proof.
  apply (idempotence_after_convergence example a_mdx a_content).
  by vm_compute.
Defined.

(** C3. A file that can be read and in which the year does not occur is
    not written: the call returns 0, every file keeps its content,
    nothing is opened for writing, and the iteration of [main] leaves
    both totals as they were. *)
Theorem untouched_if_absent
    (σ : state) (file_path : path) (content : text)
    (wr : option write_fault) (totals : Z * Z) :
  files σ !! file_path = Some (File content None wr) →
  occurrences content = [] →
  ∃ σ' : state,
    update_year_in_file file_path σ = (Return 0%Z, σ')
    ∧ files σ' = files σ
    ∧ opened_w σ' = opened_w σ
    ∧ loop_body file_path totals σ = (Return totals, σ').
Proof.
  intros Hfile Hnone.
  pose proof (untouched_if_absent_aux σ file_path content wr Hfile Hnone)
    as Hrun.
  eexists. split; [done|]. split; [done|].
  split; [apply opened_w_log_read|].
  by rewrite loop_body_unfold, Hrun.
Qed.

Lemma untouched_if_absent_witness :
  ∃ σ' : state,
    update_year_in_file b_mdx example = (Return 0%Z, σ')
    ∧ files σ' = files example
    ∧ opened_w σ' = opened_w example
    ∧ loop_body b_mdx (0%Z, 0%Z) example = (Return (0%Z, 0%Z), σ').
Proof.
  apply (untouched_if_absent example b_mdx (of_string "no year here")
           None (0%Z, 0%Z));
    by vm_compute.
Defined.

(** C4, as the specification states it, fails: the message of the
    handler is printed outside any [try], and where the path cannot be
    encoded for standard output [print] raises. The call then does not
    return 0 but raises, and the run ends. *)
Lemma per_file_failure_recovered_counterexample :
  io_error unprintable year_mdx denied
  ∧ (∃ e' σ', update_year_in_file year_mdx unprintable = (Raise e', σ')
              ∧ exn_class_of e' = UnicodeEncodeError)
  ∧ (∃ e' σ', main unprintable = (Raise e', σ')
              ∧ exn_class_of e' = UnicodeEncodeError ∧ printed σ' = [])
  ∧ ¬ (∀ σ p e, io_error σ p e →
         ∃ σ', update_year_in_file p σ = (Return 0%Z, σ')).
Proof.
  assert (io_error unprintable year_mdx denied) as Herr.
  { left. by vm_compute. }
  split; [done|]. split; [eexists _, _; by vm_compute|].
  split; [eexists _, _; by vm_compute|].
  intros Hclaim. destruct (Hclaim _ _ _ Herr) as (σ' & Hrun).
  vm_compute in Hrun. discriminate Hrun.
Qed.






(** C6. When a run ends, the total of replacements in the summary is the
    sum of the counts in the per-file lines printed before it, and the
    total of files is the number of calls of [update_year_in_file] on
    enumerated files that returned a count greater than zero (which is
    also the number of per-file lines). *)
Theorem aggregate_consistency
    (σ σ' : state) (mdx_files : generated path) :
  rglob base_dir "*.mdx" σ = (Return mdx_files, σ) →
  main σ = (Return (), σ') →
  ∃ (lines : list line) (total_files total_replacements : Z),
    printed σ' = printed σ ++ lines ++ summary total_files total_replacements
    ∧ total_replacements = sum_Z (ok_lines lines).*2
    ∧ total_files = Z.of_nat (length (updated (calls (yields mdx_files) σ)))
    ∧ total_files = Z.of_nat (length (ok_lines lines)).
Proof.
  intros Hglob Hmain.
  destruct (main_returns _ _ Hmain)
    as (found & totals & σ1 & Hglob' & _ & Hloop & ->).
  rewrite Hglob in Hglob'. injection Hglob' as <-.
  apply for_each_returns in Hloop as (-> & evs & Htr & Hok & _).
  exists (lines_of evs). eexists _, _. split.
  { unfold printed. cbn [trace fst snd].
    rewrite Htr, !lines_of_app, lines_of_print, <- app_assoc. reflexivity. }
  rewrite Hok, length_fmap, <- list_fmap_compose. by repeat split.
Qed.

Lemma aggregate_consistency_witness :
  ∃ (lines : list line) (total_files total_replacements : Z),
    printed (main faulty).2
    = printed faulty ++ lines ++ summary total_files total_replacements
    ∧ total_replacements = sum_Z (ok_lines lines).*2
    ∧ total_files
      = Z.of_nat (length (updated (calls [b_mdx; a_mdx; locked_mdx] faulty)))
    ∧ total_files = Z.of_nat (length (ok_lines lines)).
Proof.
  apply (aggregate_consistency faulty (main faulty).2
           (Generated [b_mdx; a_mdx; locked_mdx] None));
    by vm_compute.
Defined.



(** C8, as the specification states it, fails: a name below the root
    that matches [*.mdx] may be a link to a file whose own name does not
    match, and [open] follows the link. The run then rewrites that file. *)
Lemma non_matching_untouched_counterexample :
  name_matches notes_txt "*.mdx" = false
  ∧ files linked !! notes_txt = Some (File year_old None None)
  ∧ files (main linked).2 !! notes_txt = Some (File year_new None None)
  ∧ ¬ (∀ σ p, name_matches p "*.mdx" = false →
         files (main σ).2 !! p = files σ !! p).
Proof.
  split; [by vm_compute|]. split; [by vm_compute|]. split; [by vm_compute|].
  intros Hclaim. specialize (Hclaim linked notes_txt).
  vm_compute in Hclaim. by specialize (Hclaim eq_refl).
Qed.



(** C9. The text [replace] produces has as many characters as the text
    it was given, whether or not the year occurs in it. *)
Theorem replaced_content_same_length (content : text) :
  length (replace content year_old year_new) = length content
  ∧ length year_old = length year_new.
Proof. split; [apply replace_length|done]. Qed.

(** C10, as the specification states it, fails: the body of
    [update_year_in_file] is inside the [try], but the [print] of its
    handler is not. On a file that may not be read and whose name cannot
    be encoded for standard output, the exception of [print] leaves the
    function. *)
Lemma update_year_in_file_total_counterexample :
  (∃ e' σ', update_year_in_file year_mdx unprintable = (Raise e', σ')
            ∧ exn_class_of e' = UnicodeEncodeError)
  ∧ ¬ (∀ p σ, ∃ n σ',
         update_year_in_file p σ = (Return n, σ') ∧ (0 ≤ n)%Z).
Proof.
  split; [eexists _, _; by vm_compute|].
  intros Hclaim. destruct (Hclaim year_mdx unprintable) as (n & σ' & Hrun & _).
  vm_compute in Hrun. discriminate Hrun.
Qed.


(* ===================================================================== *)
(** * Further properties of the script *)
(* ===================================================================== *)

Section MoreOnTexts.

Lemma occurs_at_elem_of (s : text) (i : nat) :
  occurs_at s i = true ↔ i ∈ occurrences s.
Proof.
  unfold occurrences. rewrite list_elem_of_filter, elem_of_seq. split.
  - intros Hi. pose proof (occurs_at_lt s i Hi). split; [done|lia].
  - by intros [Hi _].
Qed.

Lemma occurrences_nil (s : text) :
  occurrences s = [] ↔ ∀ i, occurs_at s i = false.
Proof.
  split.
  - intros Hnil i. destruct (occurs_at s i) eqn:Hi; [|done].
    apply occurs_at_elem_of in Hi. rewrite Hnil in Hi.
    by apply elem_of_nil in Hi.
  - intros Hnone. apply elem_of_nil_inv. intros i Hi%occurs_at_elem_of.
    by rewrite Hnone in Hi.
Qed.

Lemma new_at_lookup (s : text) (i : nat) :
  startswith year_new (drop i s) = true ↔
  s !! i = Some 50%N ∧ s !! (i + 1) = Some 48%N ∧
  s !! (i + 2) = Some 50%N ∧ s !! (i + 3) = Some 54%N.
Proof.
  rewrite startswith_new_lookup, !lookup_drop. by rewrite Nat.add_0_r.
Qed.

(** Where the digit at [j] is not a 6 after the replacement, it is the
    digit that stood there before. *)
Lemma replace_lookup_not_six (s : text) (j : nat) (d : char) :
  replace s year_old year_new !! j = Some d → d ≠ 54%N → s !! j = Some d.
Proof.
  rewrite replace_lookup. intros H Hd.
  destruct ((3 <=? j) && occurs_at s (j - 3)); [congruence|done].
Qed.

Lemma replace_fixed (content : text) :
  count content year_old = 0%Z →
  replace content year_old year_new = content.
Proof.
  rewrite count_zero_iff, occurrences_nil. intros Hnone.
  apply list_eq. intros j.
  apply replace_lookup_outside. intros _. apply Hnone.
Qed.

End MoreOnTexts.

(** X1. The text [replace] produces is the text it was given exactly
    when the year does not occur in it: the early return at a count of 0
    passes over just those files that the replacement would leave as
    they are. *)
Theorem replace_unchanged_iff (content : text) :
  replace content year_old year_new = content
  ↔ count content year_old = 0%Z.
Proof.
  split; [|apply replace_fixed].
  rewrite count_zero_iff, occurrences_nil.
  intros Hsame i. destruct (occurs_at content i) eqn:Hi; [|done].
  pose proof (replace_lookup_last content i Hi) as Hsix.
  apply occurs_at_lookup in Hi as (_ & _ & _ & Hfive).
  rewrite Hsame in Hsix. congruence.
Qed.

(** X2. After the replacement 2026 stands exactly at the places where
    2025 or 2026 stood before: the new text does not tell which of its
    2026 were written by the script. *)
Theorem new_year_after_replace (content : text) (i : nat) :
  startswith year_new (drop i (replace content year_old year_new)) = true
  ↔ occurs_at content i = true
    ∨ startswith year_new (drop i content) = true.
Proof.
  split.
  - intros Hnew.
    destruct (occurs_at content i) eqn:Hold; [by left|right].
    apply new_at_lookup in Hnew as (H0 & H1 & H2 & H3).
    apply new_at_lookup.
    apply replace_lookup_not_six in H0, H1, H2; [|done..].
    repeat split; [done..|].
    rewrite replace_lookup in H3.
    replace (i + 3 - 3) with i in H3 by lia.
    by rewrite Hold, andb_false_r in H3.
  - intros [Hold|Hnew].
    + by apply replace_replaced_all.
    + apply new_at_lookup in Hnew as (H0 & H1 & H2 & H3).
      assert (∀ k d, k ≤ 3 → content !! (i + k) = Some d →
                (k < 3 → d ≠ 53%N) → (k = 3 → d = 54%N) →
                replace content year_old year_new !! (i + k) = Some d)
        as Hkeep.
      { intros k d Hk Hd Hlow Hhigh.
        rewrite replace_lookup_outside; [done|]. intros Hle.
        destruct (occurs_at content (i + k - 3)) eqn:Hocc; [|done].
        apply occurs_at_lookup in Hocc as (Ha & Hb & Hc & He).
        destruct (decide (k = 3)) as [->|Hne].
        - replace (i + 3 - 3 + 3) with (i + 3) in He by lia.
          pose proof (Hhigh eq_refl). congruence.
        - replace (i + k - 3 + 3) with (i + k) in He by lia.
          assert (d = 53%N) by congruence. destruct (Hlow ltac:(lia)). done. }
      rewrite <- (Nat.add_0_r i) in H0.
      apply new_at_lookup. repeat split.
      * rewrite <- (Nat.add_0_r i). apply Hkeep; [lia|done|done|lia].
      * apply Hkeep; [lia|done|done|lia].
      * apply Hkeep; [lia|done|done|lia].
      * apply Hkeep; [lia|done|lia|done].
Qed.

(** X3. What [count] returns is at most a quarter of the length of the
    text: occurrences of 2025 do not overlap. *)
Theorem count_at_most_quarter (content : text) :
  (0 ≤ 4 * count content year_old ≤ Z.of_nat (length content))%Z.
Proof.
  change (count content year_old) with (count_from year_old content).
  induction content as [|t IH|c t Hmiss IH] using scan_ind.
  - by simp count_from.
  - rewrite count_from_hit, length_app. simpl length. lia.
  - rewrite count_from_miss by done. simpl length. lia.
Qed.

(** X16. Replacing twice gives what replacing once gives. *)
Theorem replace_idempotent (content : text) :
  replace (replace content year_old year_new) year_old year_new
  = replace content year_old year_new.
Proof.
  apply replace_fixed.
  apply count_replace.
Qed.

Section MoreOnNames.

Lemma fnmatch_literal (pat name : list Ascii.ascii) :
  star_char ∉ pat → fnmatch_list pat name = true ↔ name = pat.
Proof.
  revert name. induction pat as [|c pat IH]; intros name Hpat.
  - by destruct name.
  - apply not_elem_of_cons in Hpat as [Hc Hpat]. simpl.
    destruct (Ascii.eqb_spec c star_char) as [->|_]; [done|].
    destruct name as [|c' name]; [done|].
    rewrite andb_true_iff, (IH name Hpat).
    destruct (Ascii.eqb_spec c c'); split; intros; destruct_and?; by simplify_eq.
Qed.

Lemma fnmatch_star (pat name : list Ascii.ascii) :
  fnmatch_list (star_char :: pat) name = true
  ↔ ∃ stem rest, name = stem ++ rest ∧ fnmatch_list pat rest = true.
Proof.
  induction name as [|c name IH].
  - simpl. rewrite orb_false_r. split.
    + intros H. by exists [], [].
    + intros (stem & rest & Heq & H).
      symmetry in Heq. by apply app_eq_nil in Heq as [-> ->].
  - change (fnmatch_list (star_char :: pat) (c :: name))
      with (fnmatch_list pat (c :: name)
            || fnmatch_list (star_char :: pat) name).
    rewrite orb_true_iff, IH. split.
    + intros [H|(stem & rest & -> & H)].
      * by exists [], (c :: name).
      * by exists (c :: stem), rest.
    + intros ([|c' stem] & rest & Heq & H); simplify_eq/=.
      * by left.
      * right. by exists stem, rest.
Qed.

Lemma fnmatch_mdx (name : string) :
  fnmatch name "*.mdx" = true
  ↔ String.list_ascii_of_string ".mdx"
      `suffix_of` String.list_ascii_of_string name.
Proof.
  unfold fnmatch.
  change (String.list_ascii_of_string "*.mdx")
    with (star_char :: String.list_ascii_of_string ".mdx").
  rewrite fnmatch_star. split.
  - intros (stem & rest & -> & H).
    apply fnmatch_literal in H as ->; [by exists stem|].
    intros Hin. vm_compute in Hin. not_in_list Hin.
  - intros [stem ->]. exists stem, (String.list_ascii_of_string ".mdx").
    split; [done|]. apply fnmatch_literal; [|done].
    intros Hin. vm_compute in Hin. not_in_list Hin.
Qed.

End MoreOnNames.

(** X14. The pattern of the enumeration, [*.mdx], takes a path exactly
    when its last component ends in [.mdx], in these lower-case
    letters; the other paths are the ones a run leaves alone. *)
Theorem name_matches_mdx (p : path) :
  name_matches p "*.mdx" = true
  ↔ ∃ name : string,
      last p = Some name
      ∧ String.list_ascii_of_string ".mdx"
          `suffix_of` String.list_ascii_of_string name.
Proof.
  unfold name_matches. destruct (last p) as [name|].
  - rewrite fnmatch_mdx. split; [by exists name|].
    by intros (name' & [= <-] & H).
  - split; [done|]. by intros (name' & ? & _).
Qed.

